(** * ics-repair: series merging and deduplication of calendar events

    A shallow embedding of [ics_repair.py].  The development follows the
    script top-down: text helpers, the temporal values of the calendar
    library, [series_key], [process_calendars], and the file orchestration
    of [process_file] over an explicit file system.

    Log output is threaded explicitly: every function that calls [log.*]
    returns the records it emitted, in order. *)

From Stdlib Require Import ZArith Ascii String DecimalString Permutation.
From stdpp Require Import base decidable countable list gmap strings.

Local Open Scope Z_scope.

(** ** Text *)

Module Text.

(** Python [str] is modelled by [string]; only the ASCII range is
    interpreted by the case and white-space functions below. *)

Fixpoint map_chars (f : ascii -> ascii) (s : string) : string :=
  match s with
  | EmptyString => EmptyString
  | String c r => String (f c) (map_chars f r)
  end.

Definition lower_char (c : ascii) : ascii :=
  let n := nat_of_ascii c in
  if ((65 <=? n) && (n <=? 90))%nat then ascii_of_nat (n + 32) else c.

Definition upper_char (c : ascii) : ascii :=
  let n := nat_of_ascii c in
  if ((97 <=? n) && (n <=? 122))%nat then ascii_of_nat (n - 32) else c.

(** [s.lower()] and [s.upper()]. *)
Definition lower : string -> string := map_chars lower_char.
Definition upper : string -> string := map_chars upper_char.

(** [s.replace(' ', '_')]. *)
Definition replace_space (s : string) : string :=
  map_chars (fun c => if Ascii.eqb c " " then "_"%char else c) s.

(** The characters [str.strip()] removes: tab, LF, VT, FF, CR, the four
    separators 28..31 and the blank. *)
Definition is_space (c : ascii) : bool :=
  let n := nat_of_ascii c in
  (((9 <=? n) && (n <=? 13)) || ((28 <=? n) && (n <=? 32)))%nat.

Fixpoint lstrip (s : string) : string :=
  match s with
  | EmptyString => EmptyString
  | String c r => if is_space c then lstrip r else s
  end.

Fixpoint rstrip (s : string) : string :=
  match s with
  | EmptyString => EmptyString
  | String c r =>
      match rstrip r with
      | EmptyString => if is_space c then EmptyString else String c EmptyString
      | r' => String c r'
      end
  end.

(** [s.strip()]. *)
Definition strip (s : string) : string := rstrip (lstrip s).

(** ["%d" % n]. *)
Definition decimal (n : Z) : string := NilZero.string_of_int (Z.to_int n).

Fixpoint zeros (k : nat) : string :=
  match k with
  | O => EmptyString
  | S k' => String "0" (zeros k')
  end.

(** ["%0wd" % n] for a non-negative [n]. *)
Definition zero_padded (w : nat) (n : Z) : string :=
  let d := decimal n in
  zeros (w - String.length d) +:+ d.

End Text.

(** ** Temporal values *)

(** [timedelta]: a whole number of microseconds. *)
Definition timedelta := Z.

Definition us_per_second : Z := 1000000.
Definition us_per_day : Z := 86400 * us_per_second.

(** A [tzinfo] object.  Python compares time zones by object identity
    ([is]) when it subtracts, so the object is held by its identity together
    with its [utcoffset] method, read as a function of the wall-clock
    reading of the datetime it is asked about ([None] when the method
    returns [None]).  Two datetimes of one zone share one object and may
    have different offsets (daylight saving). *)
Record TzInfo := mkTzInfo {
  tz_id : Z;
  tz_utcoffset : Z -> option Z
}.

(** The shape shared by a date or datetime and by its printed form: a day
    number, or a wall-clock reading in microseconds with what stands for its
    time zone, if any. *)
Inductive Temporal (zone : Type) :=
| CalendarDate (ordinal : Z)
| CalendarDateTime (wall : Z) (tzinfo : option zone).
Arguments CalendarDate {zone} ordinal.
Arguments CalendarDateTime {zone} wall tzinfo.

(** What the [.dt] of a [DTSTART], [DTEND] or [RECURRENCE-ID] property is:
    a [datetime.date], or a [datetime.datetime] with its [tzinfo] ([None]
    for a naive datetime). *)
Definition DateOrDateTime : Type := Temporal TzInfo.

(** What [isoformat()] prints: the day of a date; the reading of a
    datetime, followed by its UTC offset when it has one.  Different
    values print differently, so the text is held as the values it
    prints. *)
Definition IsoFormat : Type := Temporal Z.

#[global] Instance Temporal_eq_dec {zone} `{EqDecision zone} : EqDecision (Temporal zone).
Proof. solve_decision. Defined.

Definition Temporal_to_sum {zone} (d : Temporal zone) : Z + Z * option zone :=
  match d with
  | CalendarDate o => inl o
  | CalendarDateTime w tz => inr (w, tz)
  end.

Definition Temporal_of_sum {zone} (s : Z + Z * option zone) : Temporal zone :=
  match s with
  | inl o => CalendarDate o
  | inr (w, tz) => CalendarDateTime w tz
  end.

#[global] Instance Temporal_countable {zone} `{Countable zone} : Countable (Temporal zone).
Proof.
  apply (inj_countable' Temporal_to_sum Temporal_of_sum).
  by intros [].
Defined.

(** [isinstance(d, date) and not isinstance(d, datetime)]. *)
Definition is_plain_date (d : DateOrDateTime) : bool :=
  match d with
  | CalendarDate _ => true
  | CalendarDateTime _ _ => false
  end.

(** [d.tzinfo], read only on datetimes by the script. *)
Definition tzinfo_of (d : DateOrDateTime) : option TzInfo :=
  match d with
  | CalendarDate _ => None
  | CalendarDateTime _ tz => tz
  end.

(** [datetime.combine(d, datetime.min.time(), tzinfo=tz)]: midnight of the
    day [d] with the time zone object [tz]; a datetime passes through
    unchanged (the script only combines plain dates). *)
Definition combine_midnight (d : DateOrDateTime) (tz : option TzInfo) : DateOrDateTime :=
  match d with
  | CalendarDate o => CalendarDateTime (o * us_per_day) tz
  | CalendarDateTime _ _ => d
  end.

(** Outcome of a Python expression that may raise: the value, or the text
    of the exception. *)
Inductive outcome (A : Type) :=
| Returns (a : A)
| Raises (msg : string).
Arguments Returns {A} a.
Arguments Raises {A} msg.

(** [a.tzinfo is b.tzinfo]. *)
Definition same_tzinfo (a b : option TzInfo) : bool :=
  match a, b with
  | None, None => true
  | Some x, Some y => tz_id x =? tz_id y
  | _, _ => false
  end.

(** [dt.utcoffset()] of a datetime reading [wall] with time zone [tz]. *)
Definition utcoffset (wall : Z) (tz : option TzInfo) : option Z :=
  match tz with
  | Some z => tz_utcoffset z wall
  | None => None
  end.

(** [a - b] on dates and datetimes.  Two dates give whole days.  Two
    datetimes that share their [tzinfo] object (or are both naive) give the
    difference of their readings, whatever their offsets; otherwise both
    offsets are asked for: the difference of the UTC instants when both
    have one, the difference of the readings when neither has, [TypeError]
    when exactly one has.  A date mixed with a datetime raises
    [TypeError]. *)
Definition temporal_sub (a b : DateOrDateTime) : outcome timedelta :=
  match a, b with
  | CalendarDate x, CalendarDate y => Returns ((x - y) * us_per_day)
  | CalendarDateTime x tza, CalendarDateTime y tzb =>
      if same_tzinfo tza tzb then Returns (x - y)
      else
        match utcoffset x tza, utcoffset y tzb with
        | None, None => Returns (x - y)
        | Some offset_a, Some offset_b => Returns ((x - offset_a) - (y - offset_b))
        | _, _ => Raises "can't subtract offset-naive and offset-aware datetimes"
        end
  | CalendarDate _, CalendarDateTime _ _ =>
      Raises "unsupported operand type(s) for -: 'datetime.date' and 'datetime.datetime'"
  | CalendarDateTime _ _, CalendarDate _ =>
      Raises "unsupported operand type(s) for -: 'datetime.datetime' and 'datetime.date'"
  end.

(** [dt.isoformat()]. *)
Definition isoformat (d : DateOrDateTime) : IsoFormat :=
  match d with
  | CalendarDate o => CalendarDate o
  | CalendarDateTime wall tz => CalendarDateTime wall (utcoffset wall tz)
  end.

(** [str(td)] of a [timedelta]: ["H:MM:SS"], preceded by ["D day(s), "] when
    the day part is not zero and followed by [".ffffff"] when the
    microsecond part is not zero.  Days are floored, so the clock part is
    never negative. *)
Definition str_timedelta (td : timedelta) : string :=
  let days := td / us_per_day in
  let rest := td mod us_per_day in
  let seconds := rest / us_per_second in
  let micros := rest mod us_per_second in
  let mm := seconds / 60 in
  let ss := seconds mod 60 in
  let hh := mm / 60 in
  let mm := mm mod 60 in
  let s := Text.decimal hh +:+ ":" +:+ Text.zero_padded 2 mm +:+ ":" +:+ Text.zero_padded 2 ss in
  let s :=
    if days =? 0 then s
    else Text.decimal days +:+ " day" +:+ (if Z.abs days =? 1 then "" else "s") +:+ ", " +:+ s in
  if micros =? 0 then s else s +:+ "." +:+ Text.zero_padded 6 micros.

(** [str(duration)] where [duration] may be [None]. *)
Definition str_duration (d : option timedelta) : string :=
  match d with
  | None => "None"
  | Some td => str_timedelta td
  end.

(** ** Calendar objects *)

(** A property value as the calendar library types it from the property
    name: text, a date or datetime, or a recurrence rule. *)
Inductive PropValue :=
| VText (s : string)
| VDDDTypes (dt : DateOrDateTime)
| VRecur (rule : string).

(** A component that is not an event (an alarm inside an event, a time zone,
    a to-do, ...): its name, its properties and its subcomponents. *)
#[warnings="-register-all"]
Inductive Component :=
| mkComponent (name : string) (props : list (string * PropValue))
    (subcomponents : list Component).

(** An [Event]: the properties the script reads or writes, each with the
    type the library gives it, the remaining ones, and the subcomponents
    (alarms). *)
Record Event := mkEvent {
  SUMMARY : option string;
  LOCATION : option string;
  DTSTART : option DateOrDateTime;
  DTEND : option DateOrDateTime;
  UID : option string;
  RRULE : option string;
  RECURRENCE_ID : option DateOrDateTime;
  other_props : list (string * PropValue);
  ev_subcomponents : list Component
}.

(** An entry of a calendar's component list. *)
Inductive Entry :=
| EventEntry (ev : Event)
| OtherEntry (c : Component).

(** A [Calendar]: its own (document-level) properties and its component
    list.  Events occur as entries of the calendar, as in RFC 5545. *)
Record Calendar := mkCalendar {
  cal_props : list (string * PropValue);
  cal_subcomponents : list Entry
}.

(** [ev['UID'] = uid]. *)
Definition set_UID (uid : string) (ev : Event) : Event :=
  {| SUMMARY := SUMMARY ev; LOCATION := LOCATION ev; DTSTART := DTSTART ev;
     DTEND := DTEND ev; UID := Some uid; RRULE := RRULE ev;
     RECURRENCE_ID := RECURRENCE_ID ev; other_props := other_props ev;
     ev_subcomponents := ev_subcomponents ev |}.

(** ['RRULE' in ev]. *)
Definition has_RRULE (ev : Event) : bool :=
  match RRULE ev with
  | Some _ => true
  | None => false
  end.

(** *** The library's [property_items] and [walk] *)

(** [Component.property_items(recursive=True, sorted=True)], the defaults the
    script calls it with: a [BEGIN] pair, the component's own properties,
    then the items of every subcomponent, then an [END] pair. *)
Fixpoint component_items (c : Component) : list (string * PropValue) :=
  match c with
  | mkComponent name props subs =>
      ("BEGIN", VText name) :: props
        ++ flat_map component_items subs
        ++ [("END", VText name)]
  end.

Definition text_item (k : string) (v : option string) : list (string * PropValue) :=
  match v with
  | Some s => [(k, VText s)]
  | None => []
  end.

Definition dt_item (k : string) (v : option DateOrDateTime) : list (string * PropValue) :=
  match v with
  | Some d => [(k, VDDDTypes d)]
  | None => []
  end.

Definition recur_item (k : string) (v : option string) : list (string * PropValue) :=
  match v with
  | Some r => [(k, VRecur r)]
  | None => []
  end.

(** The properties an event holds, as (name, value) pairs.  The library
    lists the properties of one component in its sorted key order; nothing
    below depends on the order inside one component. *)
Definition event_props (ev : Event) : list (string * PropValue) :=
  text_item "SUMMARY" (SUMMARY ev)
    ++ dt_item "DTSTART" (DTSTART ev)
    ++ dt_item "DTEND" (DTEND ev)
    ++ text_item "UID" (UID ev)
    ++ dt_item "RECURRENCE-ID" (RECURRENCE_ID ev)
    ++ recur_item "RRULE" (RRULE ev)
    ++ text_item "LOCATION" (LOCATION ev)
    ++ other_props ev.

Definition event_items (ev : Event) : list (string * PropValue) :=
  ("BEGIN", VText "VEVENT") :: event_props ev
    ++ flat_map component_items (ev_subcomponents ev)
    ++ [("END", VText "VEVENT")].

Definition entry_items (en : Entry) : list (string * PropValue) :=
  match en with
  | EventEntry ev => event_items ev
  | OtherEntry c => component_items c
  end.

(** [cal.property_items()]. *)
Definition property_items (cal : Calendar) : list (string * PropValue) :=
  ("BEGIN", VText "VCALENDAR") :: cal_props cal
    ++ flat_map entry_items (cal_subcomponents cal)
    ++ [("END", VText "VCALENDAR")].

(** The components [cal.walk('VEVENT')] yields that pass
    [isinstance(component, Event)], in document order. *)
Definition walk_VEVENT (cal : Calendar) : list Event :=
  flat_map (fun en => match en with
                      | EventEntry ev => [ev]
                      | OtherEntry _ => []
                      end) (cal_subcomponents cal).

(** ** Logging *)

Inductive Level := INFO | WARNING | ERROR.

Definition LogRecord : Type := Level * string.

(** ** [series_key] *)

Definition SeriesKey : Type := string * string * option timedelta.

(** The promotion of lines 76-79: a plain date facing a datetime becomes
    midnight in that datetime's zone.  Returns the pair (dtstart, dtend). *)
Definition promote (dtstart dtend : DateOrDateTime) : DateOrDateTime * DateOrDateTime :=
  let is_start_date := is_plain_date dtstart in
  let is_end_date := is_plain_date dtend in
  if is_start_date && negb is_end_date then
    (combine_midnight dtstart (tzinfo_of dtend), dtend)
  else if negb is_start_date && is_end_date then
    (dtstart, combine_midnight dtend (tzinfo_of dtstart))
  else (dtstart, dtend).

Definition series_key (ev : Event) : SeriesKey * list LogRecord :=
  let summary := Text.strip (default "" (SUMMARY ev)) in
  let location := Text.strip (default "" (LOCATION ev)) in
  match DTSTART ev, DTEND ev with
  | Some dtstart, Some dtend =>
      let '(dtstart, dtend) := promote dtstart dtend in
      match temporal_sub dtend dtstart with
      | Returns duration => ((summary, location, Some duration), [])
      | Raises e =>
          ((summary, location, Some 0),
           [(WARNING, "Could not calculate duration for event '" +:+ summary +:+ "': " +:+ e)])
      end
  | _, _ => ((summary, location, None), [])
  end.

(** ** [process_calendars] *)

Definition component_type_names : list string :=
  ["VEVENT"; "VTODO"; "VJOURNAL"; "VFREEBUSY"; "VTIMEZONE"; "VALARM"].

(** [key.upper() not in ('VEVENT', ...)]. *)
Definition not_component_type (key : string) : bool :=
  negb (existsb (String.eqb (Text.upper key)) component_type_names).

(** Lines 94-97: the properties [merged.add] receives, in order.  [add]
    stores a property under its upper-cased name. *)
Definition adopt_header (first_cal : Calendar) : list (string * PropValue) :=
  map (fun kv => (Text.upper kv.1, kv.2))
      (List.filter (fun kv => not_component_type kv.1) (property_items first_cal)).

(** Lines 100-104. *)
Definition collect_events (calendars : list Calendar) : list Event :=
  flat_map walk_VEVENT calendars.

(** [groups[k].append(ev)] on a [defaultdict(list)]: the dict keeps its keys
    in order of first insertion. *)
Fixpoint groups_append (groups : list (SeriesKey * list Event)) (k : SeriesKey) (ev : Event)
  : list (SeriesKey * list Event) :=
  match groups with
  | [] => [(k, [ev])]
  | (k', ev_list) :: rest =>
      if decide (k' = k) then (k', ev_list ++ [ev]) :: rest
      else (k', ev_list) :: groups_append rest k ev
  end.

(** Lines 106-107, with the warnings [series_key] logged on the way. *)
Definition group_step (st : list (SeriesKey * list Event) * list LogRecord) (ev : Event)
  : list (SeriesKey * list Event) * list LogRecord :=
  let '(k, l) := series_key ev in
  (groups_append st.1 k ev, st.2 ++ l).

Definition group_events (all_events : list Event)
  : list (SeriesKey * list Event) * list LogRecord :=
  fold_left group_step all_events ([], []).

(** Lines 111-118.  [ev_list[0]] raises on an empty list; a group is created
    by its first [append], so no group is empty ([groups_nonempty] below) and
    the [None] here is never met. *)
Definition select_master (ev_list : list Event) : option Event :=
  match List.find has_RRULE ev_list with
  | Some ev => Some ev
  | None => head ev_list
  end.

Definition uid_suffix : string := "@fixed.by.script".

(** Lines 122-124. *)
Definition synthesize_uid (key : SeriesKey) : string :=
  let '(summary, location, duration) := key in
  let uid_base :=
    Text.lower (Text.replace_space
      (summary +:+ "-" +:+ location +:+ "-" +:+ str_duration duration)) in
  uid_base +:+ uid_suffix.

(** Lines 120-125: [not uid] holds for a missing and for an empty [UID]. *)
Definition canonical_uid (key : SeriesKey) (master : Event) : string :=
  match UID master with
  | Some (String c u) => String c u
  | _ => synthesize_uid key
  end.

(** Lines 110-129 for one group.  Each event object belongs to one group
    only, so the writes of one iteration are not seen by another; the write
    to the master on line 125 is repeated by the loop of line 127. *)
Definition process_group (g : SeriesKey * list Event) : list Event :=
  match select_master g.2 with
  | None => []
  | Some master =>
      let uid := canonical_uid g.1 master in
      map (set_UID uid) g.2
  end.

Definition EventSignature : Type := option string * IsoFormat.

(** Lines 137-143, for an event that has a [DTSTART]. *)
Definition event_signature (ev : Event) : option EventSignature :=
  match DTSTART ev with
  | None => None
  | Some dtstart =>
      let event_signature_date :=
        match RECURRENCE_ID ev with
        | Some recurrence_id => isoformat recurrence_id
        | None => isoformat dtstart
        end in
      Some (UID ev, event_signature_date)
  end.

(** State of the loop of lines 131-147. *)
Record DedupState := mkDedup {
  added_events : gset EventSignature;
  merged_components : list Event;
  dedup_log : list LogRecord
}.

Definition str_option (s : option string) : string := default "None" s.

(** The warning of line 134. *)
Definition skip_warning (ev : Event) : LogRecord :=
  (WARNING, "Skipping event '" +:+ str_option (SUMMARY ev) +:+ "' because it has no DTSTART.").

Definition dedup_step (st : DedupState) (ev : Event) : DedupState :=
  match event_signature ev with
  | None =>
      mkDedup (added_events st) (merged_components st) (dedup_log st ++ [skip_warning ev])
  | Some sig =>
      if decide (sig ∈ added_events st) then st
      else mkDedup ({[sig]} ∪ added_events st) (merged_components st ++ [ev]) (dedup_log st)
  end.

Definition dedup (final_events : list Event) : DedupState :=
  fold_left dedup_step final_events (mkDedup ∅ [] []).

(** Lines 109-129. *)
Definition build_final_events (groups : list (SeriesKey * list Event)) : list Event :=
  flat_map process_group groups.

(** [process_calendars]: the returned calendar ([None] for an empty input)
    and the log. *)
Definition process_calendars (calendars : list Calendar) : option Calendar * list LogRecord :=
  match calendars with
  | [] => (None, [])
  | first_cal :: _ =>
      let header := adopt_header first_cal in
      let all_events := collect_events calendars in
      let '(groups, log1) := group_events all_events in
      let final_events := build_final_events groups in
      let st := dedup final_events in
      (Some (mkCalendar header (map EventEntry (merged_components st))),
       log1 ++ dedup_log st)
  end.

(** ** Reference notions used in the statements *)

(** The series key alone, without the log. *)
Definition key_of (ev : Event) : SeriesKey := (series_key ev).1.

Definition same_key (k : SeriesKey) (ev : Event) : bool := bool_decide (key_of ev = k).

(** The events of a flat list that carry the key [k], in their order. *)
Definition series_of (all_events : list Event) (k : SeriesKey) : list Event :=
  List.filter (same_key k) all_events.

(** The distinct elements of a list, each at its first appearance. *)
Fixpoint first_keys (ks : list SeriesKey) : list SeriesKey :=
  match ks with
  | [] => []
  | k :: rest => k :: List.filter (fun k' => negb (bool_decide (k' = k))) (first_keys rest)
  end.

(** The list bound to [k] in a dict held as an association list. *)
Fixpoint lookup_group (groups : list (SeriesKey * list Event)) (k : SeriesKey) : list Event :=
  match groups with
  | [] => []
  | (k', ev_list) :: rest => if decide (k' = k) then ev_list else lookup_group rest k
  end.

(** The grouping loop without its log. *)
Definition pure_groups (evs : list Event) (groups : list (SeriesKey * list Event))
  : list (SeriesKey * list Event) :=
  fold_left (fun g ev => groups_append g (key_of ev) ev) evs groups.

(** The identifier every event of the series [k] ends up with. *)
Definition series_uid (all_events : list Event) (k : SeriesKey) : string :=
  match select_master (series_of all_events k) with
  | Some master => canonical_uid k master
  | None => synthesize_uid k
  end.

(** The events of the merged calendar. *)
Definition output_events (calendars : list Calendar) : list Event :=
  match (process_calendars calendars).1 with
  | Some merged => walk_VEVENT merged
  | None => []
  end.

(** What holds of the state of the deduplication loop at every iteration:
    the kept events have pairwise different signatures, all recorded in
    [added_events]. *)
Definition dedup_inv (st : DedupState) : Prop :=
  NoDup (map event_signature (merged_components st)) /\
  forall ev, In ev (merged_components st) ->
             exists sig, event_signature ev = Some sig /\ sig ∈ added_events st.


(** ** Files *)

(** The file system: the content of every existing file, by path. *)
Abbreviation FileSystem := (gmap string string).

(** What the environment does to the three file operations of one
    [process_file] run.  [None] lets the operation succeed. *)
Record IOEnv := mkIOEnv {
  (** the [IOError] raised while opening or reading the file *)
  read_error : option string;
  (** the exception raised by [shutil.copy2], and what it had written to the
      destination by then *)
  copy_error : option (string * option string);
  (** the exception raised by [open('wb')], before the file is touched *)
  open_error : option string;
  (** the exception raised by [f.write], and what had reached the file *)
  write_error : option (string * string)
}.

(** The calls made to the file system, in order. *)
Inductive FsAction :=
| ReadBytes (path : string)
| Copy2 (src dst : string)
| OpenWB (path : string)
| WriteBytes (path : string).

#[global] Instance FsAction_eq_dec : EqDecision FsAction.
Proof. solve_decision. Defined.

(** [file_path.name]: the last component of the path. *)
Fixpoint last_component (acc path : string) : string :=
  match path with
  | EmptyString => acc
  | String c rest =>
      if Ascii.eqb c "/" then last_component "" rest
      else last_component (acc +:+ String c "") rest
  end.

Definition path_name (path : string) : string := last_component "" path.

(** The text of the [FileNotFoundError] raised for [path] (a path without
    quote characters or backslashes, which [repr] would escape). *)
Definition no_such_file (path : string) : string :=
  "[Errno 2] No such file or directory: '" +:+ path +:+ "'".

(** [open('rb')] followed by [read()]. *)
Definition read_bytes (env : IOEnv) (fs : FileSystem) (path : string) : outcome string :=
  match read_error env with
  | Some e => Raises e
  | None =>
      match fs !! path with
      | Some raw => Returns raw
      | None => Raises (no_such_file path)
      end
  end.

Definition marker : string := "BEGIN:VCALENDAR".
Definition end_marker : string := "END:VCALENDAR".

(** [raw.find(sub, start)], [None] for -1. *)
Definition find (raw sub : string) (start : nat) : option nat := String.index start sub raw.

(** The [while True] loop of lines 33-44.  Every round moves [start] past an
    end marker, so the loop runs at most once per byte of [raw]; [fuel]
    counts the rounds left. *)
Fixpoint scan_blocks (fuel : nat) (raw name : string) (start : nat) (chunks : list string)
  : list string * list LogRecord :=
  match fuel with
  | O => (chunks, [])
  | S fuel' =>
      match find raw marker start with
      | None => (chunks, [])
      | Some idx =>
          match find raw end_marker idx with
          | None =>
              (chunks,
               [(WARNING, "File " +:+ name +:+ " has a VCALENDAR block without a closing tag.")])
          | Some end_ =>
              let stop := (end_ + String.length end_marker)%nat in
              let chunk := String.substring idx (stop - idx) raw in
              scan_blocks fuel' raw name stop (chunks ++ [chunk])
          end
      end
  end.

Definition read_file_chunks (env : IOEnv) (fs : FileSystem) (file_path : string)
  : list string * list LogRecord :=
  match read_bytes env fs file_path with
  | Raises e => ([], [(ERROR, "Could not read file: " +:+ file_path +:+ " - " +:+ e)])
  | Returns raw =>
      let '(chunks, log) :=
        scan_blocks (S (String.length raw)) raw (path_name file_path) 0 [] in
      match chunks with
      | [] => ([], log ++ [(WARNING, "No VCALENDAR blocks found in " +:+ path_name file_path +:+ ".")])
      | _ => (chunks, log)
      end
  end.

(** [path.with_suffix(path.suffix + '.backup')]: the same path with
    [.backup] appended. *)
Definition backup_suffix : string := ".backup".
Definition backup_path (file_path : string) : string := file_path +:+ backup_suffix.

(** [shutil.copy2(src, dst)]: the new file system and whether the call
    returned.  A failing copy may leave a (partial) destination behind; the
    source is only read. *)
Definition copy2 (env : IOEnv) (fs : FileSystem) (src dst : string)
  : FileSystem * outcome unit :=
  match copy_error env with
  | Some (e, Some partial) => (<[dst := partial]> fs, Raises e)
  | Some (e, None) => (fs, Raises e)
  | None =>
      match fs !! src with
      | Some content => (<[dst := content]> fs, Returns tt)
      | None => (fs, Raises (no_such_file src))
      end
  end.

Section Orchestrator.

(** The calendar library's parser and serializer, taken as given:
    [Calendar.from_ical(chunk)] and [cal.to_ical(sorted=True)], each
    returning or raising. *)
Variable from_ical : string -> outcome Calendar.
Variable to_ical : Calendar -> outcome string.

(** [parse_chunks], counting chunks from [i]. *)
Fixpoint parse_chunks_from (i : nat) (chunks : list string) (filename : string)
  : list Calendar * list LogRecord :=
  match chunks with
  | [] => ([], [])
  | chunk :: rest =>
      let '(calendars, log) := parse_chunks_from (S i) rest filename in
      match from_ical chunk with
      | Returns cal => (cal :: calendars, log)
      | Raises e =>
          (calendars,
           (ERROR, "Chunk " +:+ Text.decimal (Z.of_nat i) +:+ " in '" +:+ filename
                     +:+ "' could not be parsed: " +:+ e) :: log)
      end
  end.

Definition parse_chunks (chunks : list string) (filename : string)
  : list Calendar * list LogRecord :=
  parse_chunks_from 1 chunks filename.

(** Lines 152-165 of [process_file]: everything before the first write to
    the file system.  [Some fixed_cal] when the run goes on to the backup. *)
Definition prepare (env : IOEnv) (fs : FileSystem) (file_path : string)
  : option Calendar * list LogRecord :=
  let name := path_name file_path in
  let log0 := [(INFO, "Processing file: " +:+ name)] in
  let '(chunks, log1) := read_file_chunks env fs file_path in
  match chunks with
  | [] => (None, log0 ++ log1)
  | _ =>
      let '(calendars, log2) := parse_chunks chunks name in
      match calendars with
      | [] =>
          (None, log0 ++ log1 ++ log2
                   ++ [(ERROR, "No valid calendar blocks found in " +:+ name +:+ ".")])
      | _ =>
          let '(fixed_cal, log3) := process_calendars calendars in
          match fixed_cal with
          | None =>
              (None, log0 ++ log1 ++ log2 ++ log3
                       ++ [(ERROR, "Could not create calendar object for " +:+ name +:+ ".")])
          | Some cal => (Some cal, log0 ++ log1 ++ log2 ++ log3)
          end
      end
  end.

(** Lines 175-180: [open('wb')] empties the file, the serializer runs, the
    bytes are written; any exception is logged. *)
Definition overwrite (env : IOEnv) (fs : FileSystem) (file_path : string) (fixed_cal : Calendar)
  : FileSystem * list LogRecord * list FsAction :=
  let name := path_name file_path in
  let failed e := (ERROR, "Could not write repaired file " +:+ name +:+ ": " +:+ e) in
  match open_error env with
  | Some e => (fs, [failed e], [OpenWB file_path])
  | None =>
      let fs := <[file_path := ""]> fs in
      match to_ical fixed_cal with
      | Raises e => (fs, [failed e], [OpenWB file_path])
      | Returns data =>
          match write_error env with
          | Some (e, partial) =>
              (<[file_path := partial]> fs, [failed e],
               [OpenWB file_path; WriteBytes file_path])
          | None =>
              (<[file_path := data]> fs,
               [(INFO, "File successfully overwritten: " +:+ name)],
               [OpenWB file_path; WriteBytes file_path])
          end
      end
  end.

(** Lines 167-180: the backup, then the overwrite. *)
Definition persist (env : IOEnv) (fs : FileSystem) (file_path : string) (fixed_cal : Calendar)
  : FileSystem * list LogRecord * list FsAction :=
  let name := path_name file_path in
  match copy2 env fs file_path (backup_path file_path) with
  | (fs, Raises e) =>
      (fs, [(ERROR, "Could not create backup for " +:+ name +:+ ": " +:+ e)],
       [Copy2 file_path (backup_path file_path)])
  | (fs, Returns _) =>
      let '(fs, log, actions) := overwrite env fs file_path fixed_cal in
      (fs, (INFO, "Backup created: " +:+ path_name (backup_path file_path)) :: log,
       Copy2 file_path (backup_path file_path) :: actions)
  end.

(** [process_file]: the file system it leaves, its log, and the calls it
    made to the file system. *)
Definition process_file (env : IOEnv) (fs : FileSystem) (file_path : string)
  : FileSystem * list LogRecord * list FsAction :=
  match prepare env fs file_path with
  | (None, log) => (fs, log, [ReadBytes file_path])
  | (Some fixed_cal, log) =>
      let '(fs, log', actions) := persist env fs file_path fixed_cal in
      (fs, log ++ log', ReadBytes file_path :: actions)
  end.

End Orchestrator.


(** ** Folders *)

(** The part of [name] from its last dot on ([name[name.rfind('.'):]]),
    [None] when [name] has no dot. *)
Fixpoint from_last_dot (name : string) : option string :=
  match name with
  | EmptyString => None
  | String c rest =>
      match from_last_dot rest with
      | Some tail => Some tail
      | None => if Ascii.eqb c "." then Some name else None
      end
  end.

(** [path.suffix]: with [i] the place of the last dot of the name, the name
    from [i] on when [0 < i < len(name) - 1], and the empty string
    otherwise. *)
Definition path_suffix (path : string) : string :=
  match path_name path with
  | EmptyString => ""
  | String _ rest =>
      match from_last_dot rest with
      | Some tail => if (1 <? String.length tail)%nat then tail else ""
      | None => ""
      end
  end.

(** [entry.is_file() and entry.suffix.lower() == '.ics'], for an entry given
    as its path and whether it is a regular file. *)
Definition is_ics_file (entry : string * bool) : bool :=
  entry.2 && String.eqb (Text.lower (path_suffix entry.1)) ".ics".

Section Folder.

Variable from_ical : string -> outcome Calendar.
Variable to_ical : Calendar -> outcome string.

(** What the environment does to each file of the folder. *)
Variable env_of : string -> IOEnv.

(** The file system one more calendar file leaves. *)
Definition after_file (fs : FileSystem) (entry : string * bool) : FileSystem :=
  (process_file from_ical to_ical (env_of entry.1) fs entry.1).1.1.

(** State of the loop of lines 189-192: the file system, the log and the
    calls made so far, and [found_files]. *)
Record FolderState := mkFolderState {
  folder_fs : FileSystem;
  folder_log : list LogRecord;
  folder_actions : list FsAction;
  found_files : bool
}.

Definition folder_step (st : FolderState) (entry : string * bool) : FolderState :=
  if is_ics_file entry then
    let '(fs, log, actions) :=
      process_file from_ical to_ical (env_of entry.1) (folder_fs st) entry.1 in
    mkFolderState fs (folder_log st ++ log) (folder_actions st ++ actions) true
  else st.

(** [process_folder], given whether the path is a directory and what
    [iterdir()] lists in it. *)
Definition process_folder (is_dir : bool) (entries : list (string * bool))
    (fs : FileSystem) (folder_path : string) : FolderState :=
  if negb is_dir then
    mkFolderState fs [(ERROR, folder_path +:+ " is not a directory.")] [] false
  else
    let st :=
      fold_left folder_step entries
        (mkFolderState fs [(INFO, "Processing folder: " +:+ folder_path)] [] false) in
    if found_files st then st
    else mkFolderState (folder_fs st)
           (folder_log st ++ [(WARNING, "No .ics files found in folder " +:+ folder_path +:+ ".")])
           (folder_actions st) false.

End Folder.

(** ** Readings of the specification kept for comparison *)

(** The identifier as the specification words it: the textual forms of
    summary, location and duration joined by underscores and lower-cased,
    followed by the suffix. *)
Definition underscore_joined_uid (key : SeriesKey) : string :=
  let '(summary, location, duration) := key in
  Text.lower (summary +:+ "_" +:+ location +:+ "_" +:+ str_duration duration) +:+ uid_suffix.

(** The events in original flattening order, each with the identifier of
    its series, and the deduplication run over that order. *)
Definition flattening_order_events (all_events : list Event) : list Event :=
  map (fun ev => set_UID (series_uid all_events (key_of ev)) ev) all_events.

Definition dedup_in_flattening_order (calendars : list Calendar) : list Event :=
  merged_components (dedup (flattening_order_events (collect_events calendars))).

(** The list the loop of line 132 walks, written from the flat event list:
    series after series in order of first appearance, each series in its
    original order. *)
Definition grouped_order_events (all_events : list Event) : list Event :=
  flat_map (fun k => map (set_UID (series_uid all_events k)) (series_of all_events k))
           (first_keys (map key_of all_events)).

(** The events that can become master of a series: those with an [RRULE],
    or all of them when none has one. *)
Definition master_candidates (ev_list : list Event) : list Event :=
  match List.filter has_RRULE ev_list with
  | [] => ev_list
  | with_rule => with_rule
  end.

(** All candidates of every series carry the same [UID]. *)
Definition candidates_agree (all_events : list Event) : Prop :=
  forall k ev1 ev2,
    In ev1 (master_candidates (series_of all_events k)) ->
    In ev2 (master_candidates (series_of all_events k)) ->
    UID ev1 = UID ev2.

(** The signatures of the events of the merged calendar. *)
Definition output_signatures (calendars : list Calendar) : list EventSignature :=
  omap event_signature (output_events calendars).

(** ** Sample calendars *)

Module Samples.

(** 2024-01-01 as a day number, and 10:00 and 11:00 of that day. *)
Definition day1 : Z := 738886.
Definition day2 : Z := 738887.
Definition at_10 : Z := day1 * us_per_day + 10 * 3600 * us_per_second.
Definition at_11 : Z := day1 * us_per_day + 11 * 3600 * us_per_second.

(** The UTC zone, and a zone one hour east of it. *)
Definition utc : TzInfo := mkTzInfo 0 (fun _ => Some 0).
Definition utc_plus_1 : TzInfo := mkTzInfo 1 (fun _ => Some (3600 * us_per_second)).

Definition bare : Event := mkEvent None None None None None None None [] [].

(** "Standup" in "Room A", 10:00 to 11:00, without [UID]. *)
Definition standup : Event :=
  mkEvent (Some "Standup") (Some "Room A")
          (Some (CalendarDateTime at_10 None)) (Some (CalendarDateTime at_11 None))
          None None None [] [].

Definition block (evs : list Event) : Calendar :=
  mkCalendar [("VERSION", VText "2.0"); ("PRODID", VText "-//sample//")]
             (map EventEntry evs).

(** An all-day event: only a summary, a start date and a [UID]. *)
Definition all_day (summary uid : string) (day : Z) : Event :=
  mkEvent (Some summary) None (Some (CalendarDate day)) None (Some uid) None None [] [].

Definition a1 : Event := all_day "A" "X" day1.
Definition b1 : Event := all_day "B" "X" day2.
Definition a2 : Event := all_day "A" "Z" day2.

(** A start date with an end at 10:00 UTC+1. *)
Definition date_to_datetime : Event :=
  mkEvent (Some "Trip") None
          (Some (CalendarDate day1)) (Some (CalendarDateTime at_10 (Some utc_plus_1)))
          None None None [] [].

(** An aware start with a naive end. *)
Definition aware_to_naive : Event :=
  mkEvent (Some "Call") (Some "Phone")
          (Some (CalendarDateTime at_10 (Some utc))) (Some (CalendarDateTime at_11 None))
          None None None [] [].

(** A naive start with an aware end. *)
Definition naive_to_aware : Event :=
  mkEvent (Some "Call") (Some "Phone")
          (Some (CalendarDateTime at_10 None)) (Some (CalendarDateTime at_11 (Some utc)))
          None None None [] [].

(** A zone whose clocks go forward by one hour at midnight between day 1
    and day 2, as one object; and the two halves of it as objects of their
    own. *)
Definition local_zone : TzInfo :=
  mkTzInfo 2 (fun wall => if wall <? day2 * us_per_day
                          then Some (3600 * us_per_second)
                          else Some (2 * 3600 * us_per_second)).
Definition winter_time : TzInfo := mkTzInfo 3 (fun _ => Some (3600 * us_per_second)).
Definition summer_time : TzInfo := mkTzInfo 4 (fun _ => Some (2 * 3600 * us_per_second)).

(** From 10:00 on day 1 to 10:00 on day 2 across that change. *)
Definition clocks_forward : Event :=
  mkEvent (Some "Night") None
          (Some (CalendarDateTime at_10 (Some local_zone)))
          (Some (CalendarDateTime (at_10 + us_per_day) (Some local_zone)))
          None None None [] [].

Definition clocks_forward_two_objects : Event :=
  mkEvent (Some "Night") None
          (Some (CalendarDateTime at_10 (Some winter_time)))
          (Some (CalendarDateTime (at_10 + us_per_day) (Some summer_time)))
          None None None [] [].

(** The same summary and location with start and end at the same instant. *)
Definition zero_length : Event :=
  mkEvent (Some "Call") (Some "Phone")
          (Some (CalendarDateTime at_10 None)) (Some (CalendarDateTime at_10 None))
          None None None [] [].

(** A master with a rule, placed last in its series. *)
Definition weekly : Event :=
  mkEvent (Some "A") None (Some (CalendarDate day1)) None (Some "M")
          (Some "FREQ=WEEKLY") None [] [].

(** A parser that reads every block as [block [standup]], and a serializer
    that prints every calendar as the same bytes. *)
Definition const_from_ical (_ : string) : outcome Calendar := Returns (block [standup]).
Definition const_to_ical (_ : Calendar) : outcome string :=
  Returns "BEGIN:VCALENDAR END:VCALENDAR".

Definition one_file : FileSystem :=
  {[ "cal/team.ics" := "BEGIN:VCALENDAR x END:VCALENDAR" ]}.

(** Two blocks, each holding one copy of the stand-up next to an all-day
    event. *)
Definition two_blocks : list Calendar := [block [a1; standup]; block [a2; standup]].

(** One block with an event of another series between two events of the
    same series. *)
Definition interleaved : list Calendar := [block [a1; b1; a2; bare]].

(** A series of three whose only event with a rule comes last. *)
Definition rule_last : list Calendar := [block [a1; a2]; block [weekly]].

(** Two exports of one all-day event under different identifiers. *)
Definition block_x : Calendar := block [all_day "S" "X" day1].
Definition block_y : Calendar := block [all_day "S" "Y" day1].

Definition no_faults : IOEnv := mkIOEnv None None None None.
Definition copy_fails : IOEnv := mkIOEnv None (Some ("disk full", Some "BEGIN")) None None.

End Samples.

(** The merged calendar and the log of a run ([None] read as an empty
    calendar). *)
Definition merged_of (calendars : list Calendar) : Calendar :=
  default (mkCalendar [] []) (process_calendars calendars).1.

Definition log_of (calendars : list Calendar) : list LogRecord :=
  (process_calendars calendars).2.


(** ** Notions used in the further properties *)

(** A block as the extractor cuts it: the start marker, a body, the end
    marker, with no end marker starting anywhere before the final one. *)
Definition well_delimited (chunk : string) : Prop :=
  exists body,
    chunk = marker +:+ body +:+ end_marker /\
    forall p, (p < String.length marker + String.length body)%nat ->
              String.substring p (String.length end_marker) chunk <> end_marker.

(** The number of bytes of a list of blocks. *)
Definition total_length (chunks : list string) : nat :=
  list_sum (map String.length chunks).

(** What [parse_chunks] keeps of one block. *)
Definition parsed (from_ical : string -> outcome Calendar) (chunk : string) : option Calendar :=
  match from_ical chunk with
  | Returns cal => Some cal
  | Raises _ => None
  end.

(** The record [parse_chunks] logs for the block number [i]. *)
Definition parse_error (i : nat) (filename e : string) : LogRecord :=
  (ERROR, "Chunk " +:+ Text.decimal (Z.of_nat i) +:+ " in '" +:+ filename
            +:+ "' could not be parsed: " +:+ e).

(** More samples: parsers that reject some or all blocks, a serializer that
    raises, and a folder listing. *)
Module MoreSamples.

Definition picky_from_ical (chunk : string) : outcome Calendar :=
  if String.eqb chunk "BEGIN:VCALENDAR x END:VCALENDAR"
  then Returns (Samples.block [Samples.standup])
  else Raises "Content line could not be parsed".


Definition failing_to_ical (_ : Calendar) : outcome string := Raises "cannot encode".

Definition two_files : FileSystem :=
  {[ "cal/team.ics" := "BEGIN:VCALENDAR x END:VCALENDAR";
     "cal/notes.txt" := "BEGIN:VCALENDAR y END:VCALENDAR" ]}.

Definition listing : list (string * bool) :=
  [("cal/notes.txt", true); ("cal/team.ics", true); ("cal/old.ics", false)].

End MoreSamples.


(** A list of events in which the events of one series follow each other:
    when the key of an event comes again later, it comes again at once. *)
Fixpoint clustered (l : list Event) : Prop :=
  match l with
  | [] => True
  | ev :: rest =>
      (In (key_of ev) (map key_of rest) -> head (map key_of rest) = Some (key_of ev)) /\
      clustered rest
  end.

(** What lines 95-97 make of a list of items: those whose name is not a
    component-type name, each under its upper-cased name. *)
Definition adopted (items : list (string * PropValue)) : list (string * PropValue) :=
  map (fun kv => (Text.upper kv.1, kv.2))
      (List.filter (fun kv => not_component_type kv.1) items).

(** A stretch of bytes in which no start marker begins, not even one that
    would run over into a start marker placed right behind it. *)
Definition marker_free (gap : string) : Prop :=
  forall p, (p < String.length gap)%nat ->
            String.substring p (String.length marker) (gap +:+ marker) <> marker.

(** A file laid out as blocks, each behind a gap, and a tail. *)
Definition laid_out (parts : list (string * string)) (tail : string) : string :=
  fold_right (fun part rest => part.1 +:+ part.2 +:+ rest) tail parts.

Module LayoutSamples.

Definition first_block : string := "BEGIN:VCALENDAR x END:VCALENDAR".
Definition second_block : string := "BEGIN:VCALENDAR yy END:VCALENDAR".
Definition newline : string := String (ascii_of_nat 10) "".

(** Two blocks on two lines, for a file system that holds them. *)
Definition two_lines : list (string * string) :=
  [("", first_block); (newline, second_block)].

Definition on_disk : FileSystem := {[ "cal/two.ics" := laid_out two_lines newline ]}.

End LayoutSamples.
(** ** Strings: length of a concatenation *)

Lemma length_append (s t : string) :
  String.length (s +:+ t) = (String.length s + String.length t)%nat.
Proof. induction s as [|c s IH]; simpl; [reflexivity | rewrite IH; reflexivity]. Qed.

Lemma append_nonempty_r (s t : string) : t <> "" -> s +:+ t <> "".
Proof.
  intros Ht H. apply (f_equal String.length) in H. rewrite length_append in H.
  destruct t; [congruence | simpl in H; lia].
Qed.

(** ** Lists: filtering *)

Section ListFacts.
Context {A : Type}.
Implicit Types (p q : A -> bool) (l : list A).

Lemma filter_all_true p l :
  (forall x, In x l -> p x = true) -> List.filter p l = l.
Proof.
  induction l as [|x l IH]; simpl; intros H; [reflexivity|].
  rewrite (H x) by (left; reflexivity).
  f_equal. apply IH. intros y Hy. apply H. right; exact Hy.
Qed.

Lemma filter_twice p q l :
  List.filter p (List.filter q l) = List.filter (fun x => q x && p x) l.
Proof.
  induction l as [|x l IH]; simpl; [reflexivity|].
  destruct (q x); simpl; [destruct (p x)|]; rewrite ?IH; reflexivity.
Qed.

Lemma filter_same_on p q l :
  (forall x, In x l -> p x = q x) -> List.filter p l = List.filter q l.
Proof.
  induction l as [|x l IH]; simpl; intros H; [reflexivity|].
  rewrite (H x) by (left; reflexivity).
  rewrite IH; [reflexivity|]. intros y Hy. apply H. right; exact Hy.
Qed.

Lemma filter_snoc p l x :
  List.filter p (l ++ [x]) = List.filter p l ++ (if p x then [x] else []).
Proof. rewrite List.filter_app. reflexivity. Qed.

End ListFacts.

(** ** Grouping *)

Section Grouping.
Implicit Types (gs : list (SeriesKey * list Event)) (k : SeriesKey) (ev : Event).

Lemma first_keys_In ks k : In k (first_keys ks) <-> In k ks.
Proof.
  induction ks as [|k0 ks IH]; simpl; [tauto|].
  rewrite filter_In, IH.
  destruct (decide (k = k0)) as [->|Hne]; [tauto|].
  rewrite negb_true_iff, bool_decide_eq_false. split.
  - intros [H|[H _]]; [left; exact H | right; exact H].
  - intros [H|H]; [left; exact H | right; split; [exact H | exact Hne]].
Qed.

Lemma first_keys_NoDup ks : NoDup (first_keys ks).
Proof.
  induction ks as [|k0 ks IH]; simpl; constructor.
  - rewrite list_elem_of_In, filter_In, negb_true_iff, bool_decide_eq_false. tauto.
  - apply NoDup_ListNoDup, List.NoDup_filter, NoDup_ListNoDup, IH.
Qed.

Lemma lookup_groups_append gs k ev k' :
  lookup_group (groups_append gs k ev) k' =
  if decide (k = k') then lookup_group gs k ++ [ev] else lookup_group gs k'.
Proof.
  induction gs as [|[k0 l0] gs IH]; simpl.
  - destruct (decide (k = k')); reflexivity.
  - destruct (decide (k0 = k)) as [->|Hne]; simpl.
    + destruct (decide (k = k')); reflexivity.
    + rewrite IH. destruct (decide (k0 = k')) as [->|Hne'].
      * destruct (decide (k = k')); [congruence | reflexivity].
      * reflexivity.
Qed.

Lemma keys_groups_append gs k ev :
  map fst (groups_append gs k ev) =
  map fst gs ++ (if bool_decide (k ∈ map fst gs) then [] else [k]).
Proof.
  induction gs as [|[k0 l0] gs IH]; [reflexivity|].
  cbn [groups_append map fst app].
  destruct (decide (k0 = k)) as [->|Hne]; cbn [map fst app].
  - rewrite bool_decide_eq_true_2 by apply list_elem_of_here.
    rewrite app_nil_r. reflexivity.
  - rewrite IH. f_equal. f_equal.
    apply (f_equal (fun b : bool => if b then [] else [k])).
    apply bool_decide_ext. rewrite elem_of_cons.
    split; [tauto|]. intros [H|H]; [congruence | exact H].
Qed.

Lemma lookup_pure_groups evs gs k :
  lookup_group (pure_groups evs gs) k = lookup_group gs k ++ series_of evs k.
Proof.
  revert gs. induction evs as [|ev evs IH]; intros gs; simpl.
  - rewrite app_nil_r. reflexivity.
  - unfold pure_groups in *. simpl. rewrite IH, lookup_groups_append.
    unfold same_key.
    destruct (decide (key_of ev = k)) as [Heq|Hne].
    + rewrite bool_decide_eq_true_2 by exact Heq. subst k.
      rewrite <- app_assoc. reflexivity.
    + rewrite bool_decide_eq_false_2 by exact Hne. reflexivity.
Qed.

Lemma keys_pure_groups evs gs :
  map fst (pure_groups evs gs) =
  map fst gs ++
    List.filter (fun k => negb (bool_decide (k ∈ map fst gs)))
                (first_keys (map key_of evs)).
Proof.
  revert gs. induction evs as [|ev evs IH]; intros gs.
  - simpl. rewrite app_nil_r. reflexivity.
  - unfold pure_groups in *. cbn [fold_left map first_keys].
    rewrite IH, keys_groups_append.
    destruct (decide (key_of ev ∈ map fst gs)) as [Hin|Hnin].
    + rewrite (bool_decide_eq_true_2 _ Hin). rewrite app_nil_r.
      cbn [List.filter]. rewrite (bool_decide_eq_true_2 _ Hin). cbn [negb].
      rewrite filter_twice.
      f_equal. apply filter_same_on. intros k _.
      repeat case_bool_decide; subst; simpl; try reflexivity; tauto.
    + rewrite (bool_decide_eq_false_2 _ Hnin).
      cbn [List.filter]. rewrite (bool_decide_eq_false_2 _ Hnin). cbn [negb].
      rewrite filter_twice.
      rewrite <- app_assoc. cbn [app]. f_equal. f_equal.
      apply filter_same_on. intros k _.
      repeat case_bool_decide; subst; simpl; try reflexivity; exfalso;
        rewrite elem_of_app, list_elem_of_singleton in *; tauto.
Qed.

Lemma groups_by_lookup gs :
  NoDup (map fst gs) ->
  gs = map (fun k => (k, lookup_group gs k)) (map fst gs).
Proof.
  induction gs as [|[k0 l0] gs IH]; simpl; intros Hnd; [reflexivity|].
  apply NoDup_cons in Hnd as [Hnotin Hnd].
  rewrite decide_True by reflexivity. f_equal.
  rewrite (IH Hnd) at 1. apply map_ext_in. intros k Hk.
  rewrite decide_False; [reflexivity|].
  intros ->. apply Hnotin, list_elem_of_In, Hk.
Qed.

Lemma group_events_fst evs st :
  (fold_left group_step evs st).1 = pure_groups evs st.1.
Proof.
  revert st. induction evs as [|ev evs IH]; intros st; simpl; [reflexivity|].
  rewrite IH. unfold group_step, key_of. destruct (series_key ev); reflexivity.
Qed.

(** The dict after the grouping loop: one entry per key, in order of
    first appearance, holding the events of that key in their order. *)
Lemma group_events_spec all_events :
  (group_events all_events).1 =
  map (fun k => (k, series_of all_events k)) (first_keys (map key_of all_events)).
Proof.
  unfold group_events. rewrite group_events_fst. simpl.
  assert (Hkeys : map fst (pure_groups all_events []) = first_keys (map key_of all_events)).
  { rewrite keys_pure_groups. cbn [map app]. apply filter_all_true.
    intros k _. rewrite bool_decide_eq_false_2 by apply not_elem_of_nil. reflexivity. }
  rewrite (groups_by_lookup (pure_groups all_events [])).
  - rewrite Hkeys. apply map_ext. intros k.
    rewrite lookup_pure_groups. reflexivity.
  - rewrite Hkeys. apply first_keys_NoDup.
Qed.

Lemma series_of_nonempty all_events ev :
  In ev all_events -> In ev (series_of all_events (key_of ev)).
Proof.
  intros H. apply filter_In. split; [exact H|].
  unfold same_key. apply bool_decide_eq_true. reflexivity.
Qed.

(** No group is empty. *)
Lemma groups_nonempty all_events k ev_list :
  In (k, ev_list) (group_events all_events).1 -> ev_list <> [].
Proof.
  rewrite group_events_spec, in_map_iff. intros [k' [Heq Hk]].
  injection Heq as -> <-.
  apply first_keys_In, in_map_iff in Hk as [ev [<- Hev]].
  intros Hnil. apply series_of_nonempty in Hev. rewrite Hnil in Hev. exact Hev.
Qed.

End Grouping.

(** ** The final event list *)

Section FinalEvents.
Implicit Types (all_events : list Event) (k : SeriesKey) (ev : Event).

Lemma select_master_None ev_list : select_master ev_list = None -> ev_list = [].
Proof.
  unfold select_master. destruct (List.find has_RRULE ev_list); [discriminate|].
  destruct ev_list; [reflexivity | discriminate].
Qed.

Lemma select_master_In ev_list master :
  select_master ev_list = Some master -> In master ev_list.
Proof.
  unfold select_master. destruct (List.find has_RRULE ev_list) eqn:Hfind.
  - intros [= <-]. apply find_some in Hfind. tauto.
  - destruct ev_list; [discriminate|]. intros [= <-]. left; reflexivity.
Qed.

Lemma process_group_series all_events k :
  process_group (k, series_of all_events k) =
  map (set_UID (series_uid all_events k)) (series_of all_events k).
Proof.
  unfold process_group, series_uid. simpl.
  destruct (select_master (series_of all_events k)) eqn:Hm; [reflexivity|].
  apply select_master_None in Hm. rewrite Hm. reflexivity.
Qed.

(** The list the deduplication loop walks: series after series, in order
    of first appearance; inside a series, the events in their original
    order, each carrying the identifier of the series. *)
Lemma final_events_spec all_events :
  build_final_events (group_events all_events).1 =
  flat_map (fun k => map (set_UID (series_uid all_events k)) (series_of all_events k))
           (first_keys (map key_of all_events)).
Proof.
  rewrite group_events_spec. unfold build_final_events.
  induction (first_keys (map key_of all_events)) as [|k ks IH]; simpl; [reflexivity|].
  rewrite IH. f_equal. apply process_group_series.
Qed.

Lemma final_events_In all_events ev' :
  In ev' (build_final_events (group_events all_events).1) <->
  exists ev, In ev all_events /\ ev' = set_UID (series_uid all_events (key_of ev)) ev.
Proof.
  rewrite final_events_spec, in_flat_map. split.
  - intros [k [_ Hin]]. apply in_map_iff in Hin as [ev [<- Hev]].
    apply filter_In in Hev as [Hev Hk].
    apply bool_decide_eq_true in Hk. subst k. exists ev. tauto.
  - intros [ev [Hev ->]]. exists (key_of ev). split.
    + apply first_keys_In, in_map, Hev.
    + apply in_map, series_of_nonempty, Hev.
Qed.

Lemma key_of_set_UID uid ev : key_of (set_UID uid ev) = key_of ev.
Proof. reflexivity. Qed.

Lemma canonical_uid_nonempty k master : canonical_uid k master <> "".
Proof.
  unfold canonical_uid. destruct (UID master) as [[|c u]|]; try discriminate;
    destruct k as [[summary location] duration]; unfold synthesize_uid;
    apply append_nonempty_r; discriminate.
Qed.

Lemma series_uid_nonempty all_events k : series_uid all_events k <> "".
Proof.
  unfold series_uid. destruct (select_master _); [apply canonical_uid_nonempty|].
  destruct k as [[summary location] duration]. unfold synthesize_uid.
  apply append_nonempty_r. discriminate.
Qed.

End FinalEvents.

(** ** The deduplication loop *)

Section Dedup.
Implicit Types (st : DedupState) (ev : Event) (sig : EventSignature).

Lemma dedup_step_inv st ev : dedup_inv st -> dedup_inv (dedup_step st ev).
Proof.
  intros [Hnd Hin]. unfold dedup_step.
  destruct (event_signature ev) as [sig|] eqn:Hsig; [|split; assumption].
  destruct (decide (sig ∈ added_events st)) as [Hseen|Hnew]; [split; assumption|].
  split; simpl.
  - rewrite map_app. simpl. apply NoDup_app. split; [exact Hnd|]. split.
    + intros s Hs Hs'. apply list_elem_of_singleton in Hs'. subst s.
      apply list_elem_of_In, in_map_iff in Hs as [ev' [Hev' Hin']].
      destruct (Hin ev' Hin') as [sig' [Hsig' Hadded]].
      rewrite Hsig in Hev'. rewrite Hsig' in Hev'. injection Hev' as ->.
      exact (Hnew Hadded).
    + apply NoDup_singleton.
  - intros ev' Hev'. apply in_app_iff in Hev' as [Hev'|[<-|[]]].
    + destruct (Hin ev' Hev') as [sig' [Hsig' Hadded]].
      exists sig'. split; [exact Hsig' | set_solver].
    + exists sig. split; [exact Hsig | set_solver].
Qed.

Lemma fold_dedup_inv l st : dedup_inv st -> dedup_inv (fold_left dedup_step l st).
Proof.
  revert st. induction l as [|ev l IH]; intros st H; simpl; [exact H|].
  apply IH, dedup_step_inv, H.
Qed.

Lemma dedup_inv_init : dedup_inv (mkDedup ∅ [] []).
Proof. split; simpl; [constructor | intros ev []]. Qed.

(** The set [added_events] holds the signatures met so far. *)
Lemma fold_dedup_added l st sig :
  sig ∈ added_events (fold_left dedup_step l st) <->
  sig ∈ added_events st \/ exists ev, In ev l /\ event_signature ev = Some sig.
Proof.
  revert st. induction l as [|ev l IH]; intros st; simpl.
  - split; [tauto | intros [H|[ev [[] _]]]; exact H].
  - rewrite IH. unfold dedup_step.
    destruct (event_signature ev) as [sig'|] eqn:Hsig; simpl.
    + destruct (decide (sig' ∈ added_events st)) as [Hseen|Hnew]; simpl.
      * split.
        -- intros [H|[ev' [Hin Hev']]]; [tauto|]. right. exists ev'. tauto.
        -- intros [H|[ev' [[<-|Hin] Hev']]]; [tauto| |right; exists ev'; tauto].
           left. congruence.
      * rewrite elem_of_union, elem_of_singleton. split.
        -- intros [[->|H]|[ev' [Hin Hev']]]; [|tauto|].
           ++ right. exists ev. tauto.
           ++ right. exists ev'. tauto.
        -- intros [H|[ev' [[<-|Hin] Hev']]]; [tauto| |right; exists ev'; tauto].
           left. left. congruence.
    + split.
      * intros [H|[ev' [Hin Hev']]]; [tauto|]. right. exists ev'. tauto.
      * intros [H|[ev' [[<-|Hin] Hev']]]; [tauto|congruence|right; exists ev'; tauto].
Qed.

Lemma dedup_added l sig :
  sig ∈ added_events (dedup l) <-> exists ev, In ev l /\ event_signature ev = Some sig.
Proof.
  unfold dedup. rewrite fold_dedup_added. simpl. split; [|tauto].
  intros [H|H]; [|exact H]. exfalso. set_solver.
Qed.

Lemma dedup_snoc l ev : dedup (l ++ [ev]) = dedup_step (dedup l) ev.
Proof. unfold dedup. rewrite fold_left_app. reflexivity. Qed.

Lemma dedup_NoDup l : NoDup (map event_signature (merged_components (dedup l))).
Proof. apply (fold_dedup_inv l _ dedup_inv_init). Qed.

Lemma dedup_has_signature l ev :
  In ev (merged_components (dedup l)) -> is_Some (event_signature ev).
Proof.
  intros H. destruct (fold_dedup_inv l _ dedup_inv_init) as [_ Hin].
  destruct (Hin ev H) as [sig [Hsig _]]. exists sig. exact Hsig.
Qed.

(** Nothing enters the output that the loop did not walk over. *)
Lemma fold_dedup_components_In l st ev :
  In ev (merged_components (fold_left dedup_step l st)) ->
  In ev (merged_components st) \/ In ev l.
Proof.
  revert st. induction l as [|ev' l IH]; intros st; simpl; [tauto|].
  intros H. apply IH in H as [H|H]; [|tauto].
  unfold dedup_step in H. destruct (event_signature ev'); [|tauto].
  destruct (decide _); [tauto|]. simpl in H.
  apply in_app_iff in H as [H|[<-|[]]]; tauto.
Qed.

Lemma dedup_components_In l ev : In ev (merged_components (dedup l)) -> In ev l.
Proof. intros H. apply fold_dedup_components_In in H as [[]|H]. exact H. Qed.

(** Every signature met is the signature of an event of the output. *)
Lemma dedup_covers l ev sig :
  In ev l -> event_signature ev = Some sig ->
  exists ev', In ev' (merged_components (dedup l)) /\ event_signature ev' = Some sig.
Proof.
  revert ev. induction l as [|x l IH] using rev_ind; intros ev; [intros []|].
  rewrite dedup_snoc. intros Hin Hsig. unfold dedup_step.
  destruct (event_signature x) as [sigx|] eqn:Hx.
  - destruct (decide (sigx ∈ added_events (dedup l))) as [Hseen|Hnew].
    + apply in_app_iff in Hin as [Hin|[<-|[]]]; [eapply IH; eassumption|].
      assert (sigx = sig) as -> by congruence.
      apply dedup_added in Hseen as [ev' [Hev' Hsig']]. eapply IH; eassumption.
    + simpl. apply in_app_iff in Hin as [Hin|[<-|[]]].
      * destruct (IH ev Hin Hsig) as [ev' [Hev' Hsig']].
        exists ev'. split; [apply in_or_app; left; exact Hev' | exact Hsig'].
      * exists x. split; [apply in_or_app; right; left; reflexivity | exact Hsig].
  - simpl. apply in_app_iff in Hin as [Hin|[<-|[]]]; [eapply IH; eassumption | congruence].
Qed.

End Dedup.

(** ** [process_calendars] as a whole *)

Lemma walk_VEVENT_merged header evs :
  walk_VEVENT (mkCalendar header (map EventEntry evs)) = evs.
Proof.
  unfold walk_VEVENT. simpl. induction evs as [|ev evs IH]; simpl; [reflexivity|].
  rewrite IH. reflexivity.
Qed.

Lemma process_calendars_cons first_cal rest :
  process_calendars (first_cal :: rest) =
  let all_events := collect_events (first_cal :: rest) in
  let st := dedup (build_final_events (group_events all_events).1) in
  (Some (mkCalendar (adopt_header first_cal) (map EventEntry (merged_components st))),
   (group_events all_events).2 ++ dedup_log st).
Proof.
  unfold process_calendars.
  destruct (group_events (collect_events (first_cal :: rest))) as [groups log1].
  reflexivity.
Qed.

Lemma output_events_spec calendars :
  output_events calendars =
  merged_components (dedup (build_final_events (group_events (collect_events calendars)).1)).
Proof.
  unfold output_events. destruct calendars as [|first_cal rest]; [reflexivity|].
  rewrite process_calendars_cons. simpl. apply walk_VEVENT_merged.
Qed.

Lemma map_lookup {A B} (f : A -> B) (l : list A) (i : nat) :
  map f l !! i = f <$> (l !! i).
Proof.
  revert i. induction l as [|x l IH]; intros [|i]; simpl; try reflexivity. apply IH.
Qed.

Lemma output_events_grouped calendars :
  output_events calendars =
  merged_components (dedup (grouped_order_events (collect_events calendars))).
Proof. rewrite output_events_spec, final_events_spec. reflexivity. Qed.

(** An event of the output is an input event carrying the identifier of
    its series. *)
Lemma output_event_origin calendars ev' :
  In ev' (output_events calendars) ->
  exists ev, In ev (collect_events calendars) /\
             ev' = set_UID (series_uid (collect_events calendars) (key_of ev)) ev.
Proof.
  rewrite output_events_spec. intros H.
  apply dedup_components_In, final_events_In in H. exact H.
Qed.

Lemma output_event_uid calendars ev :
  In ev (output_events calendars) ->
  UID ev = Some (series_uid (collect_events calendars) (key_of ev)).
Proof.
  intros H. apply output_event_origin in H as [ev0 [_ ->]]. reflexivity.
Qed.

(** A group of the grouping loop is the series of its key. *)
Lemma group_series_iff all_events k ev_list :
  In (k, ev_list) (group_events all_events).1 <->
  In k (first_keys (map key_of all_events)) /\ ev_list = series_of all_events k.
Proof.
  rewrite group_events_spec, in_map_iff. split.
  - intros [k' [Heq Hk]]. injection Heq as -> <-. tauto.
  - intros [Hk ->]. exists k. tauto.
Qed.

Lemma series_of_key all_events k ev : In ev (series_of all_events k) -> key_of ev = k.
Proof.
  intros H. apply filter_In in H as [_ H]. apply bool_decide_eq_true in H. exact H.
Qed.

Lemma process_calendars_output first_cal rest :
  exists merged log,
    process_calendars (first_cal :: rest) = (Some merged, log) /\
    walk_VEVENT merged = output_events (first_cal :: rest).
Proof.
  unfold output_events. rewrite process_calendars_cons. simpl.
  eexists. eexists. split; reflexivity.
Qed.

(** ** Master selection *)

Section Master.
Implicit Types (ev_list : list Event) (master : Event).

Lemma find_first ev_list master :
  List.find has_RRULE ev_list = Some master ->
  exists before after,
    ev_list = before ++ master :: after /\ has_RRULE master = true /\
    (forall ev, In ev before -> has_RRULE ev = false).
Proof.
  induction ev_list as [|x l IH]; simpl; [discriminate|].
  destruct (has_RRULE x) eqn:Hx.
  - intros [= <-]. exists [], l. split; [reflexivity|]. split; [exact Hx|]. intros ev [].
  - intros H. destruct (IH H) as [before [after [-> [Hm Hb]]]].
    exists (x :: before), after. split; [reflexivity|]. split; [exact Hm|].
    intros ev [<-|Hin]; [exact Hx | apply Hb, Hin].
Qed.

Lemma find_skips before master after :
  (forall ev, In ev before -> has_RRULE ev = false) ->
  has_RRULE master = true ->
  List.find has_RRULE (before ++ master :: after) = Some master.
Proof.
  intros Hb Hm. induction before as [|x l IH]; simpl.
  - rewrite Hm. reflexivity.
  - rewrite (Hb x) by (left; reflexivity). apply IH.
    intros ev Hev. apply Hb. right; exact Hev.
Qed.

(** The master is the first event with a rule, or else the first event. *)
Lemma select_master_spec ev_list master :
  select_master ev_list = Some master ->
  (exists before after,
      ev_list = before ++ master :: after /\ has_RRULE master = true /\
      (forall ev, In ev before -> has_RRULE ev = false))
  \/ ((forall ev, In ev ev_list -> has_RRULE ev = false) /\
      exists after, ev_list = master :: after).
Proof.
  unfold select_master. destruct (List.find has_RRULE ev_list) as [m|] eqn:Hfind.
  - intros [= <-]. left. apply find_first, Hfind.
  - intros Hhead. right. split.
    + intros ev Hev. apply (find_none _ _ Hfind ev Hev).
    + destruct ev_list as [|x l]; [discriminate|]. injection Hhead as <-.
      exists l. reflexivity.
Qed.

Lemma select_master_nonempty ev_list :
  ev_list <> [] -> exists master, select_master ev_list = Some master.
Proof.
  intros Hne. destruct (select_master ev_list) as [m|] eqn:Hm; [exists m; reflexivity|].
  apply select_master_None in Hm. contradiction.
Qed.

Lemma select_master_only_rule before r after :
  has_RRULE r = true ->
  (forall ev, In ev (before ++ after) -> has_RRULE ev = false) ->
  select_master (before ++ r :: after) = Some r.
Proof.
  intros Hr Hothers. unfold select_master. rewrite find_skips; [reflexivity| |exact Hr].
  intros ev Hev. apply Hothers, in_or_app. left; exact Hev.
Qed.

Lemma process_group_master k ev_list master :
  select_master ev_list = Some master ->
  process_group (k, ev_list) = map (set_UID (canonical_uid k master)) ev_list.
Proof. unfold process_group. simpl. intros ->. reflexivity. Qed.

Lemma group_is_series all_events k ev_list :
  In (k, ev_list) (group_events all_events).1 -> ev_list = series_of all_events k.
Proof.
  rewrite group_events_spec, in_map_iff. intros [k' [[= -> <-] _]]. reflexivity.
Qed.

End Master.

(** ** One round of the deduplication loop *)

Section DedupRound.
Implicit Types (done : list Event) (ev : Event).

Lemma event_signature_None ev : event_signature ev = None <-> DTSTART ev = None.
Proof. unfold event_signature. destruct (DTSTART ev); split; congruence. Qed.

Lemma dedup_round_dropped done ev :
  DTSTART ev = None ->
  merged_components (dedup (done ++ [ev])) = merged_components (dedup done) /\
  dedup_log (dedup (done ++ [ev])) = dedup_log (dedup done) ++ [skip_warning ev].
Proof.
  intros H. apply event_signature_None in H.
  rewrite dedup_snoc. unfold dedup_step. rewrite H. split; reflexivity.
Qed.

Lemma dedup_round_kept done ev :
  DTSTART ev <> None ->
  (forall ev', In ev' done -> event_signature ev' <> event_signature ev) ->
  merged_components (dedup (done ++ [ev])) = merged_components (dedup done) ++ [ev] /\
  dedup_log (dedup (done ++ [ev])) = dedup_log (dedup done).
Proof.
  intros Hstart Hfresh. rewrite dedup_snoc. unfold dedup_step.
  destruct (event_signature ev) as [sig|] eqn:Hsig;
    [|apply event_signature_None in Hsig; contradiction].
  destruct (decide (sig ∈ added_events (dedup done))) as [Hseen|Hnew];
    [|split; reflexivity].
  apply dedup_added in Hseen as [ev' [Hin Hsig']].
  exfalso. apply (Hfresh ev' Hin). congruence.
Qed.

Lemma dedup_round_duplicate done ev :
  DTSTART ev <> None ->
  (exists ev', In ev' done /\ event_signature ev' = event_signature ev) ->
  merged_components (dedup (done ++ [ev])) = merged_components (dedup done) /\
  dedup_log (dedup (done ++ [ev])) = dedup_log (dedup done).
Proof.
  intros Hstart [ev' [Hin Heq]]. rewrite dedup_snoc. unfold dedup_step.
  destruct (event_signature ev) as [sig|] eqn:Hsig;
    [|apply event_signature_None in Hsig; contradiction].
  destruct (decide (sig ∈ added_events (dedup done))) as [Hseen|Hnew];
    [split; reflexivity|].
  exfalso. apply Hnew, dedup_added. exists ev'. split; assumption.
Qed.

End DedupRound.

(** ** [series_key] *)

Section SeriesKeyFacts.
Implicit Types (ev : Event) (dtstart dtend : DateOrDateTime).

Lemma same_tzinfo_refl (tz : option TzInfo) : same_tzinfo tz tz = true.
Proof. destruct tz as [z|]; [apply Z.eqb_refl | reflexivity]. Qed.

Lemma series_key_both ev dtstart dtend :
  DTSTART ev = Some dtstart -> DTEND ev = Some dtend ->
  series_key ev =
  let summary := Text.strip (default "" (SUMMARY ev)) in
  let location := Text.strip (default "" (LOCATION ev)) in
  match temporal_sub (promote dtstart dtend).2 (promote dtstart dtend).1 with
  | Returns duration => ((summary, location, Some duration), [])
  | Raises e =>
      ((summary, location, Some 0),
       [(WARNING, "Could not calculate duration for event '" +:+ summary +:+ "': " +:+ e)])
  end.
Proof.
  intros Hs He. unfold series_key. rewrite Hs, He.
  destruct (promote dtstart dtend) as [s e]. reflexivity.
Qed.

Lemma series_key_missing ev :
  DTSTART ev = None \/ DTEND ev = None ->
  series_key ev =
  ((Text.strip (default "" (SUMMARY ev)), Text.strip (default "" (LOCATION ev)), None), []).
Proof.
  unfold series_key. intros [H|H]; rewrite H; [reflexivity|].
  destruct (DTSTART ev); reflexivity.
Qed.

(** Events of one key sit in one group. *)
Lemma same_key_same_group all_events ev ev0 :
  In ev all_events -> In ev0 all_events -> key_of ev0 = key_of ev ->
  exists ev_list,
    In (key_of ev, ev_list) (group_events all_events).1 /\
    In ev ev_list /\ In ev0 ev_list.
Proof.
  intros Hev Hev0 Hkey. exists (series_of all_events (key_of ev)).
  split; [|split].
  - rewrite group_events_spec. apply in_map_iff. exists (key_of ev).
    split; [reflexivity|]. apply first_keys_In, in_map, Hev.
  - apply series_of_nonempty, Hev.
  - rewrite <- Hkey. apply series_of_nonempty, Hev0.
Qed.

End SeriesKeyFacts.

(** ** The signatures of the output and the order of the blocks *)

Section BlockOrder.
Implicit Types (all_events : list Event) (k : SeriesKey) (ev : Event).

Lemma output_signatures_In calendars sig :
  In sig (output_signatures calendars) <->
  exists ev,
    In ev (collect_events calendars) /\
    event_signature (set_UID (series_uid (collect_events calendars) (key_of ev)) ev)
      = Some sig.
Proof.
  unfold output_signatures. rewrite <- list_elem_of_In, list_elem_of_omap. split.
  - intros [ev' [Hin Hsig]]. apply list_elem_of_In in Hin.
    destruct (output_event_origin _ _ Hin) as [ev [Hev ->]]. exists ev. tauto.
  - intros [ev [Hev Hsig]].
    destruct (dedup_covers
                (build_final_events (group_events (collect_events calendars)).1)
                (set_UID (series_uid (collect_events calendars) (key_of ev)) ev) sig)
      as [ev' [Hin' Hsig']]; [|exact Hsig|].
    + apply final_events_In. exists ev. tauto.
    + exists ev'. rewrite list_elem_of_In, output_events_spec. tauto.
Qed.

Lemma master_candidates_In ev_list ev :
  In ev (master_candidates ev_list) <->
  In ev ev_list /\
  (has_RRULE ev = true \/ forall ev', In ev' ev_list -> has_RRULE ev' = false).
Proof.
  unfold master_candidates. destruct (List.filter has_RRULE ev_list) as [|r rs] eqn:Hf.
  - assert (Hall : forall ev', In ev' ev_list -> has_RRULE ev' = false).
    { intros ev' Hin. destruct (has_RRULE ev') eqn:Hr; [|reflexivity].
      assert (Hin' : In ev' (List.filter has_RRULE ev_list))
        by (apply filter_In; tauto).
      rewrite Hf in Hin'. destruct Hin'. }
    tauto.
  - rewrite <- Hf, filter_In.
    assert (Hr : In r ev_list /\ has_RRULE r = true).
    { apply filter_In. rewrite Hf. left; reflexivity. }
    split; [tauto|]. intros [Hin [Hrule|Hnone]]; [tauto|].
    destruct Hr as [Hr1 Hr2]. rewrite (Hnone r Hr1) in Hr2. discriminate.
Qed.

Lemma select_master_candidate ev_list master :
  select_master ev_list = Some master -> In master (master_candidates ev_list).
Proof.
  intros Hm. apply master_candidates_In. split; [apply select_master_In, Hm|].
  destruct (select_master_spec _ _ Hm) as [[before [after [_ [Hr _]]]]|[Hnone _]];
    [left; exact Hr | right; exact Hnone].
Qed.

Lemma canonical_uid_same_UID k master master' :
  UID master = UID master' -> canonical_uid k master = canonical_uid k master'.
Proof. unfold canonical_uid. intros ->. reflexivity. Qed.

Lemma collect_events_In calendars ev :
  In ev (collect_events calendars) <->
  exists cal, In cal calendars /\ In ev (walk_VEVENT cal).
Proof. unfold collect_events. apply in_flat_map. Qed.

Lemma collect_events_Permutation calendars calendars' ev :
  Permutation calendars calendars' ->
  In ev (collect_events calendars) <-> In ev (collect_events calendars').
Proof.
  intros Hp. rewrite !collect_events_In. split; intros [cal [Hcal Hev]]; exists cal.
  - split; [apply (Permutation_in _ Hp), Hcal | exact Hev].
  - split; [apply (Permutation_in _ (Permutation_sym Hp)), Hcal | exact Hev].
Qed.

(** With the same events to choose from, and all candidates of a series
    carrying the same [UID], the series gets the same identifier. *)
Lemma series_uid_same_events all_events all_events' k :
  (forall ev, In ev all_events <-> In ev all_events') ->
  candidates_agree all_events ->
  series_uid all_events k = series_uid all_events' k.
Proof.
  intros Hsame Hagree.
  assert (Hseries : forall ev, In ev (series_of all_events k)
                               <-> In ev (series_of all_events' k)).
  { intros ev. unfold series_of. rewrite !filter_In, Hsame. reflexivity. }
  assert (Hcand : forall ev, In ev (master_candidates (series_of all_events' k))
                             -> In ev (master_candidates (series_of all_events k))).
  { intros ev. rewrite !master_candidates_In, Hseries.
    intros [Hin [Hr|Hnone]]; (split; [exact Hin|]); [left; exact Hr|].
    right. intros ev' Hev'. apply Hnone, Hseries, Hev'. }
  unfold series_uid.
  destruct (select_master (series_of all_events k)) as [m|] eqn:Hm,
           (select_master (series_of all_events' k)) as [m'|] eqn:Hm'.
  - apply canonical_uid_same_UID, (Hagree k).
    + apply select_master_candidate, Hm.
    + apply Hcand, select_master_candidate, Hm'.
  - apply select_master_None in Hm'. apply select_master_In, Hseries in Hm.
    rewrite Hm' in Hm. destruct Hm.
  - apply select_master_None in Hm. apply select_master_In, Hseries in Hm'.
    rewrite Hm in Hm'. destruct Hm'.
  - reflexivity.
Qed.

(** Agreement of the candidates needs checking on the keys that occur. *)
Lemma candidates_agree_on_keys all_events :
  (forall k, In k (first_keys (map key_of all_events)) ->
             forall ev1 ev2,
               In ev1 (master_candidates (series_of all_events k)) ->
               In ev2 (master_candidates (series_of all_events k)) ->
               UID ev1 = UID ev2) ->
  candidates_agree all_events.
Proof.
  intros H k ev1 ev2 H1 H2. apply (H k); [|exact H1|exact H2].
  apply master_candidates_In in H1 as [H1 _].
  apply filter_In in H1 as [Hin Hk]. apply bool_decide_eq_true in Hk. subst k.
  apply first_keys_In, in_map, Hin.
Qed.

End BlockOrder.

(** ** The orchestrator *)

Section OrchestratorFacts.
Variable from_ical : string -> outcome Calendar.
Variable to_ical : Calendar -> outcome string.
Implicit Types (env : IOEnv) (fs : FileSystem) (file_path : string).

Lemma backup_path_differs file_path : backup_path file_path <> file_path.
Proof.
  unfold backup_path, backup_suffix. intros H.
  apply (f_equal String.length) in H. rewrite length_append in H. simpl in H. lia.
Qed.

(** A run that reaches the backup has read the file. *)
Lemma prepare_read env fs file_path fixed_cal log :
  prepare from_ical env fs file_path = (Some fixed_cal, log) ->
  exists raw, fs !! file_path = Some raw.
Proof.
  unfold prepare, read_file_chunks, read_bytes.
  destruct (read_error env); [discriminate|].
  destruct (fs !! file_path) as [raw|]; [|discriminate].
  intros _. exists raw. reflexivity.
Qed.

(** The overwrite touches the file itself and nothing else. *)
Lemma overwrite_other env fs file_path fixed_cal other :
  other <> file_path ->
  (overwrite to_ical env fs file_path fixed_cal).1.1 !! other = fs !! other.
Proof.
  intros Hne. unfold overwrite.
  destruct (open_error env); [reflexivity|].
  destruct (to_ical fixed_cal); simpl.
  - destruct (write_error env) as [[e partial]|]; simpl;
      rewrite !lookup_insert_ne by congruence; reflexivity.
  - rewrite lookup_insert_ne by congruence. reflexivity.
Qed.

Lemma overwrite_actions env fs file_path fixed_cal a :
  In a (overwrite to_ical env fs file_path fixed_cal).2 ->
  a = OpenWB file_path \/ a = WriteBytes file_path.
Proof.
  clear from_ical. unfold overwrite.
  destruct (open_error env); [simpl; intros [<-|[]]; tauto|].
  destruct (to_ical fixed_cal); [|simpl; intros [<-|[]]; tauto].
  destruct (write_error env) as [[e partial]|]; simpl; intros [<-|[<-|[]]]; tauto.
Qed.

Lemma process_file_prepared env fs file_path fixed_cal log :
  prepare from_ical env fs file_path = (Some fixed_cal, log) ->
  process_file from_ical to_ical env fs file_path =
  ((persist to_ical env fs file_path fixed_cal).1.1,
   log ++ (persist to_ical env fs file_path fixed_cal).1.2,
   ReadBytes file_path :: (persist to_ical env fs file_path fixed_cal).2).
Proof.
  intros H. unfold process_file. rewrite H.
  destruct (persist to_ical env fs file_path fixed_cal) as [[fs' log'] actions].
  reflexivity.
Qed.

Lemma persist_copy_failed env fs file_path fixed_cal e partial :
  copy_error env = Some (e, partial) ->
  persist to_ical env fs file_path fixed_cal =
  (match partial with
   | Some written => <[backup_path file_path := written]> fs
   | None => fs
   end,
   [(ERROR, "Could not create backup for " +:+ path_name file_path +:+ ": " +:+ e)],
   [Copy2 file_path (backup_path file_path)]).
Proof.
  intros H. unfold persist, copy2. rewrite H. destruct partial; reflexivity.
Qed.

Lemma persist_copy_done env fs file_path fixed_cal raw :
  copy_error env = None -> fs !! file_path = Some raw ->
  persist to_ical env fs file_path fixed_cal =
  let after := overwrite to_ical env (<[backup_path file_path := raw]> fs)
                         file_path fixed_cal in
  (after.1.1,
   (INFO, "Backup created: " +:+ path_name (backup_path file_path)) :: after.1.2,
   Copy2 file_path (backup_path file_path) :: after.2).
Proof.
  intros Hc Hraw. unfold persist, copy2. rewrite Hc, Hraw. cbv zeta.
  destruct (overwrite to_ical env (<[backup_path file_path := raw]> fs) file_path fixed_cal)
    as [[fs' log'] actions].
  reflexivity.
Qed.

End OrchestratorFacts.

(** ** The block scan terminates within its fuel *)

Section Scan.
Implicit Types (raw sub name : string) (start fuel : nat).

Lemma prefix_length sub raw :
  String.prefix sub raw = true -> (String.length sub <= String.length raw)%nat.
Proof.
  revert raw. induction sub as [|a sub IH]; intros raw; simpl; [lia|].
  destruct raw as [|b raw]; simpl; [discriminate|].
  destruct (ascii_dec a b); [|discriminate].
  intros H. apply IH in H. lia.
Qed.

(** A match of [find] starts at or after [start] and lies inside [raw]. *)
Lemma find_bounds raw sub start idx :
  find raw sub start = Some idx ->
  (start <= idx /\ idx + String.length sub <= String.length raw)%nat.
Proof.
  unfold find. revert start idx.
  induction raw as [|b raw IH]; intros start idx.
  - destruct start, sub; simpl; try discriminate. intros [= <-]. lia.
  - destruct start as [|start]; cbn [String.index].
    + destruct (String.prefix sub (String b raw)) eqn:Hp.
      * intros [= <-]. apply prefix_length in Hp. simpl in *. lia.
      * destruct (String.index 0 sub raw) as [m|] eqn:Hm; [|discriminate].
        intros [= <-]. apply IH in Hm. simpl. lia.
    + destruct (String.index start sub raw) as [m|] eqn:Hm; [|discriminate].
      intros [= <-]. apply IH in Hm. simpl. lia.
Qed.

(** Any two amounts of fuel that exceed what is left of [raw] give the same
    scan: the loop stops by itself, on a missing marker. *)
Lemma scan_blocks_fuel fuel1 fuel2 raw name start chunks :
  (String.length raw < start + fuel1)%nat ->
  (String.length raw < start + fuel2)%nat ->
  scan_blocks fuel1 raw name start chunks = scan_blocks fuel2 raw name start chunks.
Proof.
  revert fuel2 start chunks.
  induction fuel1 as [|fuel1 IH]; intros fuel2 start chunks H1 H2.
  - destruct fuel2 as [|fuel2]; [reflexivity|]. simpl.
    destruct (find raw marker start) as [idx|] eqn:Hidx; [|reflexivity].
    apply find_bounds in Hidx. simpl in Hidx. lia.
  - simpl. destruct (find raw marker start) as [idx|] eqn:Hidx.
    + destruct fuel2 as [|fuel2].
      * apply find_bounds in Hidx. simpl in Hidx. lia.
      * simpl. rewrite Hidx.
        destruct (find raw end_marker idx) as [end_|] eqn:Hend; [|reflexivity].
        apply find_bounds in Hidx. apply find_bounds in Hend. simpl in Hidx, Hend.
        apply IH; simpl; lia.
    + destruct fuel2 as [|fuel2]; [reflexivity|]. simpl. rewrite Hidx. reflexivity.
Qed.

(** [read_file_chunks] gives its loop enough fuel. *)
Lemma read_file_chunks_fuel raw name fuel :
  (String.length raw < fuel)%nat ->
  scan_blocks fuel raw name 0 [] = scan_blocks (S (String.length raw)) raw name 0 [].
Proof. intros H. apply scan_blocks_fuel; simpl; lia. Qed.

End Scan.


(** ** Names of paths *)

Lemma append_assoc (a b c : string) : (a +:+ b) +:+ c = a +:+ (b +:+ c).
Proof.
  induction a as [|x a IH]; [reflexivity|].
  change (String x ((a +:+ b) +:+ c) = String x (a +:+ (b +:+ c))).
  rewrite IH. reflexivity.
Qed.

Lemma append_empty_r (a : string) : a +:+ "" = a.
Proof.
  induction a as [|x a IH]; [reflexivity|].
  change (String x (a +:+ "") = String x a). rewrite IH. reflexivity.
Qed.

(** Reading a path on from where a first part ended. *)
Lemma last_component_app (acc path more : string) :
  last_component acc (path +:+ more) = last_component (last_component acc path) more.
Proof.
  revert acc. induction path as [|c path IH]; intros acc; simpl; [reflexivity|].
  destruct (Ascii.eqb c "/"); apply IH.
Qed.

(** The name of a path with [.backup] appended is its name with [.backup]
    appended. *)
Lemma last_component_append (path : string) :
  last_component "" (path +:+ ".backup") = last_component "" path +:+ ".backup".
Proof.
  rewrite last_component_app. simpl. rewrite !append_assoc. reflexivity.
Qed.

(** * The claims *)

(** ** C1: no two events of the output share a signature *)

(** C1.  For a non-empty list of calendars [process_calendars] returns a
    merged calendar; every event in it has a signature (UID, effective date),
    the effective date being that of [RECURRENCE-ID] when present and of
    [DTSTART] otherwise, and two events at different positions of the merged
    calendar never have the same signature. *)
Theorem C1_no_duplicate_signatures (calendars : list Calendar) :
  calendars <> [] ->
  exists merged log,
    process_calendars calendars = (Some merged, log) /\
    (forall ev, In ev (walk_VEVENT merged) -> is_Some (event_signature ev)) /\
    (forall i j ev1 ev2,
        walk_VEVENT merged !! i = Some ev1 ->
        walk_VEVENT merged !! j = Some ev2 ->
        i <> j -> event_signature ev1 <> event_signature ev2).
Proof.
  destruct calendars as [|first_cal rest]; [congruence|]. intros _.
  destruct (process_calendars_output first_cal rest) as [merged [log [Hrun Hwalk]]].
  exists merged, log. split; [exact Hrun|]. rewrite Hwalk, output_events_spec.
  split.
  - intros ev. apply dedup_has_signature.
  - intros i j ev1 ev2 Hi Hj Hne Heq. apply Hne.
    eapply NoDup_lookup; [apply dedup_NoDup | |].
    + rewrite map_lookup, Hi. reflexivity.
    + rewrite map_lookup, Hj. simpl. rewrite Heq. reflexivity.
Qed.

Lemma C1_no_duplicate_signatures_witness :
  [Samples.block [Samples.standup]; Samples.block [Samples.standup]] <> [] /\
  exists merged log,
    process_calendars [Samples.block [Samples.standup]; Samples.block [Samples.standup]]
      = (Some merged, log) /\
    (forall ev, In ev (walk_VEVENT merged) -> is_Some (event_signature ev)) /\
    (forall i j ev1 ev2,
        walk_VEVENT merged !! i = Some ev1 ->
        walk_VEVENT merged !! j = Some ev2 ->
        i <> j -> event_signature ev1 <> event_signature ev2).
Proof.
  split; [discriminate|].
  apply (C1_no_duplicate_signatures
           [Samples.block [Samples.standup]; Samples.block [Samples.standup]]).
  discriminate.
Defined.

(** ** C3: the identifier of the series reaches every event *)

(** C3.  Take a run of [process_calendars] that returns a calendar.
    - During merging: every group has a master, whose non-empty UID, or
      else the synthesized identifier of the key, is the canonical UID of
      the group; every event of the group, with its UID overwritten by that
      canonical UID and nothing else changed, is appended to
      [final_events].
    - In the merged calendar: every event is an event of a group with the
      canonical UID of that group as its UID, and every event of a group
      that has a DTSTART is represented by an event with the canonical UID of
      the group and the same signature.
    - Consequently two events of the merged calendar with equal
      (summary, location, duration) have equal UID, and every event of the
      merged calendar has a non-empty UID. *)
Theorem C3_uid_propagation (calendars : list Calendar) (merged : Calendar)
    (log : list LogRecord) :
  process_calendars calendars = (Some merged, log) ->
  (forall k ev_list,
      In (k, ev_list) (group_events (collect_events calendars)).1 ->
      exists master,
        select_master ev_list = Some master /\ In master ev_list /\
        (forall uid, UID master = Some uid -> uid <> "" -> canonical_uid k master = uid) /\
        (UID master = None \/ UID master = Some "" ->
         canonical_uid k master = synthesize_uid k) /\
        process_group (k, ev_list) = map (set_UID (canonical_uid k master)) ev_list /\
        (forall ev, In ev (process_group (k, ev_list)) ->
                    UID ev = Some (canonical_uid k master)) /\
        (forall ev, In ev ev_list ->
                    In (set_UID (canonical_uid k master) ev)
                       (build_final_events (group_events (collect_events calendars)).1)) /\
        (forall ev, In ev ev_list -> DTSTART ev <> None ->
                    exists ev',
                      In ev' (walk_VEVENT merged) /\
                      UID ev' = Some (canonical_uid k master) /\
                      event_signature ev'
                        = event_signature (set_UID (canonical_uid k master) ev))) /\
  (forall ev',
      In ev' (walk_VEVENT merged) ->
      exists k ev_list master ev,
        In (k, ev_list) (group_events (collect_events calendars)).1 /\
        select_master ev_list = Some master /\
        In ev ev_list /\ key_of ev = k /\
        ev' = set_UID (canonical_uid k master) ev /\
        UID ev' = Some (canonical_uid k master)) /\
  (forall ev1 ev2,
      In ev1 (walk_VEVENT merged) -> In ev2 (walk_VEVENT merged) ->
      key_of ev1 = key_of ev2 -> UID ev1 = UID ev2) /\
  (forall ev, In ev (walk_VEVENT merged) -> exists uid, UID ev = Some uid /\ uid <> "").
Proof.
  intros Hrun.
  destruct calendars as [|first_cal rest]; [discriminate|].
  destruct (process_calendars_output first_cal rest) as [merged' [log' [Hrun' Hwalk]]].
  rewrite Hrun in Hrun'. injection Hrun' as <- <-. rewrite Hwalk.
  set (all_events := collect_events (first_cal :: rest)).
  split; [|split; [|split]].
  - intros k ev_list Hin.
    destruct (select_master_nonempty ev_list (groups_nonempty _ _ _ Hin)) as [master Hm].
    assert (Huid : series_uid all_events k = canonical_uid k master).
    { apply group_series_iff in Hin as [_ ->]. unfold series_uid. rewrite Hm. reflexivity. }
    assert (Hfinal : forall ev, In ev ev_list ->
               In (set_UID (canonical_uid k master) ev)
                  (build_final_events (group_events all_events).1)).
    { intros ev Hev. unfold build_final_events. apply in_flat_map.
      exists (k, ev_list). split; [exact Hin|].
      rewrite (process_group_master _ _ _ Hm). apply in_map, Hev. }
    exists master. split; [exact Hm|]. split; [apply select_master_In, Hm|].
    split; [|split; [|split; [|split; [|split]]]].
    + intros uid Hu Hne. unfold canonical_uid. rewrite Hu.
      destruct uid; [contradiction | reflexivity].
    + intros [Hu|Hu]; unfold canonical_uid; rewrite Hu; reflexivity.
    + apply process_group_master, Hm.
    + rewrite (process_group_master _ _ _ Hm).
      intros ev Hev. apply in_map_iff in Hev as [ev0 [<- _]]. reflexivity.
    + exact Hfinal.
    + intros ev Hev Hstart.
      destruct (event_signature (set_UID (canonical_uid k master) ev)) as [sig|] eqn:Hsig.
      * destruct (dedup_covers _ _ sig (Hfinal ev Hev) Hsig) as [ev' [Hin' Hsig']].
        exists ev'. rewrite output_events_spec. split; [exact Hin'|]. split; [|exact Hsig'].
        unfold event_signature in Hsig, Hsig'. simpl in Hsig.
        destruct (DTSTART ev); [|contradiction]. destruct (DTSTART ev'); [|discriminate].
        congruence.
      * apply event_signature_None in Hsig. simpl in Hsig. contradiction.
  - intros ev' Hev'. destruct (output_event_origin _ _ Hev') as [ev [Hev ->]].
    fold all_events in Hev |- *.
    assert (Hin : In (key_of ev, series_of all_events (key_of ev))
                     (group_events all_events).1).
    { apply group_series_iff. split; [|reflexivity]. apply first_keys_In, in_map, Hev. }
    destruct (select_master_nonempty _ (groups_nonempty _ _ _ Hin)) as [master Hm].
    exists (key_of ev), (series_of all_events (key_of ev)), master, ev.
    assert (Huid : series_uid all_events (key_of ev) = canonical_uid (key_of ev) master).
    { unfold series_uid. rewrite Hm. reflexivity. }
    rewrite Huid. split; [exact Hin|]. split; [exact Hm|].
    split; [apply series_of_nonempty, Hev|]. repeat split.
  - intros ev1 ev2 H1 H2 Hkey.
    rewrite (output_event_uid _ _ H1), (output_event_uid _ _ H2), Hkey. reflexivity.
  - intros ev Hev. eexists. split; [apply output_event_uid, Hev|].
    apply series_uid_nonempty.
Qed.

(** Two blocks, each with the all-day event A (UIDs X and Z) and the
    stand-up without UID: the merged calendar holds both A with UID X, the
    UID of the master, and one stand-up with the synthesized UID. *)
Lemma C3_uid_propagation_witness :
  process_calendars Samples.two_blocks
    = (Some (merged_of Samples.two_blocks), log_of Samples.two_blocks) /\
  map UID (walk_VEVENT (merged_of Samples.two_blocks))
    = [Some "X"; Some "X"; Some "standup-room_a-1:00:00@fixed.by.script"] /\
  (forall ev',
      In ev' (walk_VEVENT (merged_of Samples.two_blocks)) ->
      exists k ev_list master ev,
        In (k, ev_list) (group_events (collect_events Samples.two_blocks)).1 /\
        select_master ev_list = Some master /\
        In ev ev_list /\ key_of ev = k /\
        ev' = set_UID (canonical_uid k master) ev /\
        UID ev' = Some (canonical_uid k master)) /\
  (forall ev1 ev2,
      In ev1 (walk_VEVENT (merged_of Samples.two_blocks)) ->
      In ev2 (walk_VEVENT (merged_of Samples.two_blocks)) ->
      key_of ev1 = key_of ev2 -> UID ev1 = UID ev2) /\
  (forall ev, In ev (walk_VEVENT (merged_of Samples.two_blocks)) ->
              exists uid, UID ev = Some uid /\ uid <> "").
Proof.
  assert (Hrun : process_calendars Samples.two_blocks
                 = (Some (merged_of Samples.two_blocks), log_of Samples.two_blocks))
    by (vm_compute; reflexivity).
  split; [exact Hrun|]. split; [vm_compute; reflexivity|].
  exact (proj2 (C3_uid_propagation Samples.two_blocks _ _ Hrun)).
Defined.

(** ** C2: the master of a group and its canonical identifier *)

(** C2, as stated, fails on the way the identifier is built.  For the
    stand-up without UID, alone in its group and therefore its master, the
    script yields [standup-room_a-1:00:00@fixed.by.script]: the three parts
    are joined by hyphens and only blanks become underscores.  Joining the
    parts by underscores gives another string. *)
Lemma C2_counterexample :
  select_master [Samples.standup] = Some Samples.standup /\
  UID Samples.standup = None /\
  canonical_uid (key_of Samples.standup) Samples.standup
    = "standup-room_a-1:00:00@fixed.by.script" /\
  canonical_uid (key_of Samples.standup) Samples.standup
    <> underscore_joined_uid (key_of Samples.standup).
Proof. vm_compute. repeat split; discriminate. Qed.

(** C2, amended.  A group is the events of one series key in their original
    order.  Its master is the first event with an RRULE, or the first event
    when none has one.  The canonical UID is the master's UID when it has a
    non-empty one; otherwise it is the text [summary-location-duration]
    (hyphen-joined) with every blank replaced by an underscore, lower-cased,
    followed by [@fixed.by.script].  Every event of the group, the master
    included, receives it.  When exactly one event of the group has an
    RRULE, that event is the master wherever it stands. *)
Theorem C2_master_and_canonical_uid (calendars : list Calendar) (k : SeriesKey)
    (ev_list : list Event) :
  In (k, ev_list) (group_events (collect_events calendars)).1 ->
  ev_list = series_of (collect_events calendars) k /\
  exists master,
    select_master ev_list = Some master /\
    ((exists before after,
         ev_list = before ++ master :: after /\ has_RRULE master = true /\
         (forall ev, In ev before -> has_RRULE ev = false))
     \/ ((forall ev, In ev ev_list -> has_RRULE ev = false) /\
         exists after, ev_list = master :: after)) /\
    ((exists c u, UID master = Some (String c u) /\ canonical_uid k master = String c u)
     \/ ((UID master = None \/ UID master = Some "") /\
         canonical_uid k master =
           Text.lower (Text.replace_space
             (k.1.1 +:+ "-" +:+ k.1.2 +:+ "-" +:+ str_duration k.2))
           +:+ "@fixed.by.script")) /\
    In (set_UID (canonical_uid k master) master) (process_group (k, ev_list)) /\
    (forall ev, In ev (process_group (k, ev_list)) ->
                UID ev = Some (canonical_uid k master)) /\
    (forall before r after,
        ev_list = before ++ r :: after -> has_RRULE r = true ->
        (forall ev, In ev (before ++ after) -> has_RRULE ev = false) ->
        master = r).
Proof.
  intros Hin. split; [apply group_is_series, Hin|].
  destruct (select_master_nonempty ev_list (groups_nonempty _ _ _ Hin)) as [master Hm].
  exists master. split; [exact Hm|]. split; [apply select_master_spec, Hm|].
  rewrite (process_group_master _ _ _ Hm).
  split; [|split; [|split]].
  - unfold canonical_uid. destruct k as [[summary location] duration]. simpl.
    destruct (UID master) as [[|c u]|].
    + right. split; [right; reflexivity | reflexivity].
    + left. exists c, u. split; reflexivity.
    + right. split; [left; reflexivity | reflexivity].
  - apply in_map, select_master_In, Hm.
  - intros ev Hev. apply in_map_iff in Hev as [ev0 [<- _]]. reflexivity.
  - intros before r after -> Hr Hothers.
    rewrite (select_master_only_rule _ _ _ Hr Hothers) in Hm. congruence.
Qed.

Lemma C2_master_and_canonical_uid_witness :
  In (key_of Samples.weekly, [Samples.a1; Samples.a2; Samples.weekly])
     (group_events (collect_events Samples.rule_last)).1 /\
  exists master,
    select_master [Samples.a1; Samples.a2; Samples.weekly] = Some master /\
    master = Samples.weekly /\
    canonical_uid (key_of Samples.weekly) master = "M".
Proof.
  assert (Hin : In (key_of Samples.weekly, [Samples.a1; Samples.a2; Samples.weekly])
                   (group_events (collect_events Samples.rule_last)).1)
    by (vm_compute; left; reflexivity).
  split; [exact Hin|].
  destruct (C2_master_and_canonical_uid Samples.rule_last _ _ Hin)
    as [_ [master [Hm [_ [_ [_ [_ Hrule]]]]]]].
  exists master. split; [exact Hm|].
  assert (Heq : master = Samples.weekly).
  { apply (Hrule [Samples.a1; Samples.a2] Samples.weekly []); [reflexivity..|].
    intros ev [<-|[<-|[]]]; reflexivity. }
  split; [exact Heq|]. rewrite Heq. reflexivity.
Defined.

(** ** C4: the order in which duplicates are removed *)

(** C4, as stated, fails on the order.  In one block holding A (UID X, day
    1), B (UID X, day 2) and A (UID Z, day 2), the second A receives UID X
    from its series and then has the signature of B.  The script walks the
    events series by series, meets the second A first and keeps it; walking
    them in the original flattening order keeps B instead. *)
Lemma C4_counterexample :
  output_events Samples.interleaved = [Samples.a1; set_UID "X" Samples.a2] /\
  dedup_in_flattening_order Samples.interleaved = [Samples.a1; Samples.b1] /\
  output_events Samples.interleaved <> dedup_in_flattening_order Samples.interleaved.
Proof. vm_compute. repeat split. discriminate. Qed.

(** C4, amended.  The deduplication step walks the events series by series
    (series in order of first appearance, the events of a series in their
    original order), each event carrying the UID of its series, and the
    merged calendar holds what the walk keeps; the log of the run is the
    warnings of the grouping followed by those of the walk.  At every event
    of the walk: without DTSTART it is dropped and one warning is logged;
    with a signature no earlier event of the walk has, it is appended to the
    output and nothing is logged; with a signature an earlier event has, it
    is discarded and nothing is logged. *)
Theorem C4_dedup_in_grouped_order (calendars : list Calendar)
    (done : list Event) (ev : Event) (rest : list Event) :
  grouped_order_events (collect_events calendars) = done ++ ev :: rest ->
  output_events calendars = merged_components (dedup (done ++ ev :: rest)) /\
  (process_calendars calendars).2 =
    (group_events (collect_events calendars)).2 ++ dedup_log (dedup (done ++ ev :: rest)) /\
  dedup (done ++ ev :: rest) = fold_left dedup_step rest (dedup (done ++ [ev])) /\
  (DTSTART ev = None ->
     merged_components (dedup (done ++ [ev])) = merged_components (dedup done) /\
     dedup_log (dedup (done ++ [ev])) = dedup_log (dedup done) ++ [skip_warning ev]) /\
  (DTSTART ev <> None ->
   (forall ev', In ev' done -> event_signature ev' <> event_signature ev) ->
     merged_components (dedup (done ++ [ev])) = merged_components (dedup done) ++ [ev] /\
     dedup_log (dedup (done ++ [ev])) = dedup_log (dedup done)) /\
  (DTSTART ev <> None ->
   (exists ev', In ev' done /\ event_signature ev' = event_signature ev) ->
     merged_components (dedup (done ++ [ev])) = merged_components (dedup done) /\
     dedup_log (dedup (done ++ [ev])) = dedup_log (dedup done)).
Proof.
  intros Hwalk. split; [rewrite output_events_grouped, Hwalk; reflexivity|].
  split.
  - destruct calendars as [|first_cal rest'].
    + destruct done; discriminate.
    + rewrite process_calendars_cons. cbv zeta. cbn [snd].
      rewrite final_events_spec. fold (grouped_order_events (collect_events (first_cal :: rest'))).
      rewrite Hwalk. reflexivity.
  - split; [unfold dedup; rewrite <- fold_left_app, <- app_assoc; reflexivity|].
    split; [apply dedup_round_dropped|].
    split; [apply dedup_round_kept | apply dedup_round_duplicate].
Qed.

Lemma C4_dedup_in_grouped_order_witness :
  grouped_order_events (collect_events Samples.interleaved)
    = [Samples.a1; set_UID "X" Samples.a2]
        ++ set_UID "X" Samples.b1
        :: [set_UID "--none@fixed.by.script" Samples.bare] /\
  output_events Samples.interleaved
    = merged_components
        (dedup ([Samples.a1; set_UID "X" Samples.a2]
                  ++ set_UID "X" Samples.b1
                  :: [set_UID "--none@fixed.by.script" Samples.bare])) /\
  merged_components (dedup ([Samples.a1; set_UID "X" Samples.a2] ++ [set_UID "X" Samples.b1]))
    = merged_components (dedup [Samples.a1; set_UID "X" Samples.a2]).
Proof.
  assert (Hwalk : grouped_order_events (collect_events Samples.interleaved)
                  = [Samples.a1; set_UID "X" Samples.a2]
                      ++ set_UID "X" Samples.b1
                      :: [set_UID "--none@fixed.by.script" Samples.bare])
    by (vm_compute; reflexivity).
  split; [exact Hwalk|].
  destruct (C4_dedup_in_grouped_order Samples.interleaved _ _ _ Hwalk)
    as [Hout [_ [_ [_ [_ Hdup]]]]].
  split; [exact Hout|].
  apply Hdup; [discriminate|].
  exists (set_UID "X" Samples.a2). split; [right; left; reflexivity | reflexivity].
Defined.

(** ** C5: the header of the merged calendar *)

(** C5, evaluated on one block holding the stand-up.  [property_items()]
    descends into subcomponents and names them only in the values of its
    BEGIN and END pairs, so the test on component-type names removes
    nothing: the merged calendar has, as properties of its own, the BEGIN
    and END pairs and the SUMMARY of the event, none of which is a property
    of the first calendar. *)
Theorem C5_header_takes_event_properties :
  exists merged log,
    process_calendars [Samples.block [Samples.standup]] = (Some merged, log) /\
    In ("SUMMARY", VText "Standup") (cal_props merged) /\
    In ("BEGIN", VText "VEVENT") (cal_props merged) /\
    In ("END", VText "VCALENDAR") (cal_props merged) /\
    ~ In ("SUMMARY", VText "Standup") (cal_props (Samples.block [Samples.standup])) /\
    In ("SUMMARY", VText "Standup") (event_props Samples.standup).
Proof.
  destruct (process_calendars [Samples.block [Samples.standup]]) as [merged log] eqn:Hrun.
  vm_compute in Hrun. injection Hrun as <- <-.
  eexists. eexists. split; [reflexivity|]. vm_compute.
  repeat split; try tauto.
  intros [H|[H|[]]]; discriminate.
Qed.

(** ** C6: the duration of a series key *)

(** C6, as stated, fails for two datetimes of which exactly one has a time
    zone.  The event below starts at 10:00 without a zone and ends at 11:00
    UTC: both bounds are present and neither is a calendar date, the end
    reads one hour after the start, yet DTEND minus DTSTART has no value
    (the subtraction raises) and the duration of the key is zero. *)
Lemma C6_counterexample :
  DTSTART Samples.naive_to_aware = Some (CalendarDateTime Samples.at_10 None) /\
  DTEND Samples.naive_to_aware = Some (CalendarDateTime Samples.at_11 (Some Samples.utc)) /\
  Samples.at_11 - Samples.at_10 = 3600 * us_per_second /\
  promote (CalendarDateTime Samples.at_10 None) (CalendarDateTime Samples.at_11 (Some Samples.utc))
    = (CalendarDateTime Samples.at_10 None, CalendarDateTime Samples.at_11 (Some Samples.utc)) /\
  temporal_sub (CalendarDateTime Samples.at_11 (Some Samples.utc))
               (CalendarDateTime Samples.at_10 None)
    = Raises "can't subtract offset-naive and offset-aware datetimes" /\
  (key_of Samples.naive_to_aware).2 = Some 0 /\
  (key_of Samples.naive_to_aware).2 <> Some (Samples.at_11 - Samples.at_10).
Proof. vm_compute. repeat split; discriminate. Qed.

(** C6, amended.  For an event with DTSTART and DTEND the duration of its
    series key is, with dates counted in days and datetimes by their
    wall-clock reading:
    - between two dates, the number of days from DTSTART to DTEND;
    - between a date and a datetime, the date promoted to midnight of that
      day with the [tzinfo] object of the datetime, and then the difference
      of the two readings, whatever the offsets of the zone;
    - between two naive datetimes, and between two datetimes that share
      their [tzinfo] object, the difference of the two readings;
    - between two datetimes with different [tzinfo] objects that both have a
      UTC offset, the difference of the two UTC instants;
    - between a naive datetime and one with a UTC offset, zero, with a
      warning logged.
    A [tzinfo] object whose [utcoffset()] is [None] counts as naive when the
    two objects differ.  For an event lacking DTSTART or DTEND the duration
    is [None], which is not the zero duration. *)
Theorem C6_series_key_duration (ev : Event) :
  (forall first_day last_day,
      DTSTART ev = Some (CalendarDate first_day) ->
      DTEND ev = Some (CalendarDate last_day) ->
      (key_of ev).2 = Some ((last_day - first_day) * us_per_day)) /\
  (forall day wall tz,
      DTSTART ev = Some (CalendarDate day) ->
      DTEND ev = Some (CalendarDateTime wall tz) ->
      promote (CalendarDate day) (CalendarDateTime wall tz)
        = (CalendarDateTime (day * us_per_day) tz, CalendarDateTime wall tz) /\
      (key_of ev).2 = Some (wall - day * us_per_day)) /\
  (forall wall tz day,
      DTSTART ev = Some (CalendarDateTime wall tz) ->
      DTEND ev = Some (CalendarDate day) ->
      promote (CalendarDateTime wall tz) (CalendarDate day)
        = (CalendarDateTime wall tz, CalendarDateTime (day * us_per_day) tz) /\
      (key_of ev).2 = Some (day * us_per_day - wall)) /\
  (forall start_wall end_wall,
      DTSTART ev = Some (CalendarDateTime start_wall None) ->
      DTEND ev = Some (CalendarDateTime end_wall None) ->
      (key_of ev).2 = Some (end_wall - start_wall)) /\
  (forall start_wall start_zone end_wall end_zone,
      DTSTART ev = Some (CalendarDateTime start_wall (Some start_zone)) ->
      DTEND ev = Some (CalendarDateTime end_wall (Some end_zone)) ->
      (tz_id end_zone = tz_id start_zone ->
       (key_of ev).2 = Some (end_wall - start_wall)) /\
      (forall end_offset start_offset,
          tz_id end_zone <> tz_id start_zone ->
          tz_utcoffset end_zone end_wall = Some end_offset ->
          tz_utcoffset start_zone start_wall = Some start_offset ->
          (key_of ev).2 = Some ((end_wall - end_offset) - (start_wall - start_offset)))) /\
  (forall start_wall start_tz end_wall end_tz zone offset,
      DTSTART ev = Some (CalendarDateTime start_wall start_tz) ->
      DTEND ev = Some (CalendarDateTime end_wall end_tz) ->
      (start_tz = None /\ end_tz = Some zone /\ tz_utcoffset zone end_wall = Some offset) \/
      (start_tz = Some zone /\ end_tz = None /\ tz_utcoffset zone start_wall = Some offset) ->
      (key_of ev).2 = Some 0 /\
      (series_key ev).2 =
        [(WARNING, "Could not calculate duration for event '"
                     +:+ Text.strip (default "" (SUMMARY ev))
                     +:+ "': can't subtract offset-naive and offset-aware datetimes")]) /\
  (forall start_wall start_tz end_wall end_tz,
      DTSTART ev = Some (CalendarDateTime start_wall start_tz) ->
      DTEND ev = Some (CalendarDateTime end_wall end_tz) ->
      same_tzinfo end_tz start_tz = false ->
      (utcoffset end_wall end_tz = None -> utcoffset start_wall start_tz = None ->
       (key_of ev).2 = Some (end_wall - start_wall)) /\
      ((utcoffset end_wall end_tz = None <-> utcoffset start_wall start_tz <> None) ->
       (key_of ev).2 = Some 0 /\ (series_key ev).2 <> [])) /\
  (DTSTART ev = None \/ DTEND ev = None -> (key_of ev).2 = None) /\
  @None timedelta <> Some 0.
Proof.
  split; [|split; [|split; [|split; [|split; [|split; [|split; [|split]]]]]]].
  - intros first_day last_day Hs He. unfold key_of.
    rewrite (series_key_both ev _ _ Hs He). reflexivity.
  - intros day wall tz Hs He. split; [reflexivity|]. unfold key_of.
    rewrite (series_key_both ev _ _ Hs He). cbn. rewrite same_tzinfo_refl. reflexivity.
  - intros wall tz day Hs He. split; [reflexivity|]. unfold key_of.
    rewrite (series_key_both ev _ _ Hs He). cbn. rewrite same_tzinfo_refl. reflexivity.
  - intros start_wall end_wall Hs He. unfold key_of.
    rewrite (series_key_both ev _ _ Hs He). reflexivity.
  - intros start_wall start_zone end_wall end_zone Hs He.
    assert (Hkey := series_key_both ev _ _ Hs He). cbn in Hkey.
    unfold key_of. rewrite Hkey. clear Hkey. split.
    + intros ->. rewrite Z.eqb_refl. reflexivity.
    + intros end_offset start_offset Hdiff -> ->.
      apply Z.eqb_neq in Hdiff. rewrite Hdiff. reflexivity.
  - intros start_wall start_tz end_wall end_tz zone offset Hs He Hone.
    assert (Hkey := series_key_both ev _ _ Hs He).
    unfold key_of. rewrite Hkey. clear Hkey.
    destruct Hone as [(-> & -> & Hoff)|(-> & -> & Hoff)]; cbn; rewrite Hoff;
      split; reflexivity.
  - intros start_wall start_tz end_wall end_tz Hs He Hdiff.
    assert (Hkey := series_key_both ev _ _ Hs He). cbn in Hkey.
    unfold key_of. rewrite Hkey. clear Hkey. rewrite Hdiff. split.
    + intros -> ->. reflexivity.
    + intros Hone.
      destruct (utcoffset end_wall end_tz), (utcoffset start_wall start_tz);
        try (split; [reflexivity | discriminate]); exfalso.
      * destruct Hone as [_ Hone]. discriminate Hone. discriminate.
      * destruct Hone as [Hone _]. apply Hone; reflexivity.
  - intros H. unfold key_of. rewrite (series_key_missing ev H). reflexivity.
  - discriminate.
Qed.

(** A trip from a start date to 10:00 in the zone one hour east of UTC
    lasts ten hours; a night in which the clocks of one zone go forward
    lasts 24 hours on the clock when both bounds share the zone object, and
    23 hours when each bound carries an object of its own; a naive start
    with an end in UTC gives zero. *)
Lemma C6_series_key_duration_witness :
  (key_of Samples.date_to_datetime).2 = Some (10 * 3600 * us_per_second) /\
  (key_of Samples.clocks_forward).2 = Some (24 * 3600 * us_per_second) /\
  (key_of Samples.clocks_forward_two_objects).2 = Some (23 * 3600 * us_per_second) /\
  (key_of Samples.naive_to_aware).2 = Some 0 /\
  (key_of Samples.bare).2 = None.
Proof.
  split; [|split; [|split; [|split]]].
  - destruct (C6_series_key_duration Samples.date_to_datetime) as (_ & Hdate & _).
    apply (Hdate Samples.day1 Samples.at_10 (Some Samples.utc_plus_1)); reflexivity.
  - destruct (C6_series_key_duration Samples.clocks_forward)
      as (_ & _ & _ & _ & Hzones & _).
    destruct (Hzones Samples.at_10 Samples.local_zone
                (Samples.at_10 + us_per_day) Samples.local_zone eq_refl eq_refl)
      as (Hshared & _).
    apply Hshared. reflexivity.
  - destruct (C6_series_key_duration Samples.clocks_forward_two_objects)
      as (_ & _ & _ & _ & Hzones & _).
    destruct (Hzones Samples.at_10 Samples.winter_time
                (Samples.at_10 + us_per_day) Samples.summer_time eq_refl eq_refl)
      as (_ & Hinstants).
    apply (Hinstants (2 * 3600 * us_per_second) (3600 * us_per_second));
      [discriminate | reflexivity | reflexivity].
  - destruct (C6_series_key_duration Samples.naive_to_aware)
      as (_ & _ & _ & _ & _ & Hone & _).
    apply (Hone Samples.at_10 None Samples.at_11 (Some Samples.utc) Samples.utc 0
             eq_refl eq_refl).
    left. repeat split.
  - destruct (C6_series_key_duration Samples.bare)
      as (_ & _ & _ & _ & _ & _ & _ & Hmissing & _).
    apply Hmissing. left; reflexivity.
Defined.

(** ** C10: the fallback to a zero duration *)

(** C10, as stated, fails on "silently".  For the call with an aware start
    and a naive end the subtraction raises, the duration becomes zero, and
    the script logs a warning carrying the text of the exception. *)
Lemma C10_counterexample :
  temporal_sub (CalendarDateTime Samples.at_11 None) (CalendarDateTime Samples.at_10 (Some Samples.utc))
    = Raises "can't subtract offset-naive and offset-aware datetimes" /\
  (series_key Samples.aware_to_naive).1 = ("Call", "Phone", Some 0) /\
  (series_key Samples.aware_to_naive).2 =
    [(WARNING, "Could not calculate duration for event 'Call': can't subtract offset-naive and offset-aware datetimes")] /\
  (series_key Samples.aware_to_naive).2 <> [].
Proof. vm_compute. repeat split. discriminate. Qed.

(** C10, amended.  For an event with DTSTART and DTEND whose subtraction,
    after promotion, raises, [series_key] returns the key with duration
    zero and logs one warning with the stripped summary and the text of the
    exception.  An event with the same stripped summary and location whose
    duration really is zero has the same key, and in any run holding both,
    both are in the same group. *)
Theorem C10_fallback_zero (ev : Event) (dtstart dtend : DateOrDateTime) (msg : string) :
  DTSTART ev = Some dtstart -> DTEND ev = Some dtend ->
  temporal_sub (promote dtstart dtend).2 (promote dtstart dtend).1 = Raises msg ->
  series_key ev =
    ((Text.strip (default "" (SUMMARY ev)), Text.strip (default "" (LOCATION ev)), Some 0),
     [(WARNING, "Could not calculate duration for event '"
                  +:+ Text.strip (default "" (SUMMARY ev)) +:+ "': " +:+ msg)]) /\
  (forall ev0 dtstart0 dtend0,
      Text.strip (default "" (SUMMARY ev0)) = Text.strip (default "" (SUMMARY ev)) ->
      Text.strip (default "" (LOCATION ev0)) = Text.strip (default "" (LOCATION ev)) ->
      DTSTART ev0 = Some dtstart0 -> DTEND ev0 = Some dtend0 ->
      temporal_sub (promote dtstart0 dtend0).2 (promote dtstart0 dtend0).1 = Returns 0 ->
      key_of ev0 = key_of ev /\
      forall all_events,
        In ev all_events -> In ev0 all_events ->
        exists ev_list,
          In (key_of ev, ev_list) (group_events all_events).1 /\
          In ev ev_list /\ In ev0 ev_list).
Proof.
  intros Hs He Hraise.
  assert (Hkey : series_key ev =
    ((Text.strip (default "" (SUMMARY ev)), Text.strip (default "" (LOCATION ev)), Some 0),
     [(WARNING, "Could not calculate duration for event '"
                  +:+ Text.strip (default "" (SUMMARY ev)) +:+ "': " +:+ msg)])).
  { rewrite (series_key_both ev dtstart dtend Hs He). simpl. rewrite Hraise. reflexivity. }
  split; [exact Hkey|].
  intros ev0 dtstart0 dtend0 Hsum Hloc Hs0 He0 Hzero.
  assert (Hsame : key_of ev0 = key_of ev).
  { unfold key_of. rewrite Hkey, (series_key_both ev0 dtstart0 dtend0 Hs0 He0). simpl.
    rewrite Hzero, Hsum, Hloc. reflexivity. }
  split; [exact Hsame|].
  intros all_events Hin Hin0. apply same_key_same_group; assumption.
Qed.

Lemma C10_fallback_zero_witness :
  DTSTART Samples.aware_to_naive = Some (CalendarDateTime Samples.at_10 (Some Samples.utc)) /\
  DTEND Samples.aware_to_naive = Some (CalendarDateTime Samples.at_11 None) /\
  (series_key Samples.aware_to_naive).1 = ("Call", "Phone", Some 0) /\
  key_of Samples.zero_length = key_of Samples.aware_to_naive.
Proof.
  split; [reflexivity|]. split; [reflexivity|].
  destruct (C10_fallback_zero Samples.aware_to_naive
              (CalendarDateTime Samples.at_10 (Some Samples.utc)) (CalendarDateTime Samples.at_11 None)
              "can't subtract offset-naive and offset-aware datetimes"
              eq_refl eq_refl eq_refl) as [Hkey Hzero].
  split; [rewrite Hkey; reflexivity|].
  apply (Hzero Samples.zero_length (CalendarDateTime Samples.at_10 None)
               (CalendarDateTime Samples.at_10 None));
    reflexivity.
Defined.

(** ** C8: the order of the blocks *)

(** C8, as stated, fails.  Two blocks export the same all-day event under
    the identifiers X and Y.  Whichever block comes first provides the
    master, so one order yields the signature (X, day 1) and the other
    (Y, day 1). *)
Lemma C8_counterexample :
  Permutation [Samples.block_x; Samples.block_y] [Samples.block_y; Samples.block_x] /\
  output_signatures [Samples.block_x; Samples.block_y]
    = [(Some "X", CalendarDate Samples.day1)] /\
  output_signatures [Samples.block_y; Samples.block_x]
    = [(Some "Y", CalendarDate Samples.day1)] /\
  ~ (forall sig,
        In sig (output_signatures [Samples.block_x; Samples.block_y]) <->
        In sig (output_signatures [Samples.block_y; Samples.block_x])).
Proof.
  split; [apply perm_swap|].
  split; [vm_compute; reflexivity|]. split; [vm_compute; reflexivity|].
  intros H. destruct (H (Some "X", CalendarDate Samples.day1)) as [Hxy _].
  assert (Hin : In (Some "X", CalendarDate Samples.day1)
                   (output_signatures [Samples.block_y; Samples.block_x])).
  { apply Hxy. vm_compute. left; reflexivity. }
  vm_compute in Hin. destruct Hin as [Hin|[]]. discriminate.
Qed.

(** C8, amended.  Giving the same blocks in another order yields the same
    set of signatures in the merged calendar provided that, in every
    series, the events that can become master (those with an RRULE, or all
    events of the series when none has one) carry the same UID. *)
Theorem C8_block_order (calendars calendars' : list Calendar) :
  Permutation calendars calendars' ->
  candidates_agree (collect_events calendars) ->
  forall sig,
    In sig (output_signatures calendars) <-> In sig (output_signatures calendars').
Proof.
  intros Hp Hagree sig. rewrite !output_signatures_In.
  assert (Huid : forall k, series_uid (collect_events calendars) k
                           = series_uid (collect_events calendars') k).
  { intros k. apply series_uid_same_events; [|exact Hagree].
    intros ev. apply collect_events_Permutation, Hp. }
  split; intros [ev [Hev Hsig]]; exists ev.
  - rewrite <- Huid. split; [apply (collect_events_Permutation _ _ _ Hp), Hev | exact Hsig].
  - rewrite Huid. split; [apply (collect_events_Permutation _ _ _ Hp), Hev | exact Hsig].
Qed.

Lemma C8_block_order_witness :
  Permutation Samples.rule_last (rev Samples.rule_last) /\
  candidates_agree (collect_events Samples.rule_last) /\
  (In (Some "M", CalendarDate Samples.day2) (output_signatures Samples.rule_last) <->
   In (Some "M", CalendarDate Samples.day2) (output_signatures (rev Samples.rule_last))).
Proof.
  assert (Hp : Permutation Samples.rule_last (rev Samples.rule_last))
    by apply Permutation_rev.
  assert (Hagree : candidates_agree (collect_events Samples.rule_last)).
  { apply candidates_agree_on_keys. intros k Hk.
    vm_compute in Hk. destruct Hk as [<-|[]].
    intros ev1 ev2 H1 H2. vm_compute in H1, H2.
    destruct H1 as [<-|[]], H2 as [<-|[]]. reflexivity. }
  split; [exact Hp|]. split; [exact Hagree|].
  apply (C8_block_order Samples.rule_last (rev Samples.rule_last) Hp Hagree).
Defined.

(** ** C9: the backup comes before the overwrite *)

(** C9.  Take a run of [process_file] that reaches the persistence stage.
    After reading the file, its first call to the file system is the copy
    of the file to the same path with [.backup] appended, a path different
    from the file's; the only calls after it open or write the file.  When
    the copy succeeds, the backup holds the original bytes whatever the
    overwrite does afterwards.  When the copy fails, the run ends there:
    no call follows the copy, the file is as it was, and the last log record
    is the error about the backup. *)
Theorem C9_backup_before_overwrite
    (from_ical : string -> outcome Calendar) (to_ical : Calendar -> outcome string)
    (env : IOEnv) (fs : FileSystem) (file_path : string)
    (fixed_cal : Calendar) (log : list LogRecord) :
  prepare from_ical env fs file_path = (Some fixed_cal, log) ->
  backup_path file_path = file_path +:+ ".backup" /\
  backup_path file_path <> file_path /\
  (exists rest,
      (process_file from_ical to_ical env fs file_path).2
        = ReadBytes file_path :: Copy2 file_path (backup_path file_path) :: rest /\
      forall a, In a rest -> a = OpenWB file_path \/ a = WriteBytes file_path) /\
  (copy_error env = None ->
     (process_file from_ical to_ical env fs file_path).1.1 !! backup_path file_path
       = fs !! file_path /\
     is_Some (fs !! file_path)) /\
  (forall e partial,
      copy_error env = Some (e, partial) ->
      (process_file from_ical to_ical env fs file_path).2
        = [ReadBytes file_path; Copy2 file_path (backup_path file_path)] /\
      (process_file from_ical to_ical env fs file_path).1.1 !! file_path = fs !! file_path /\
      (process_file from_ical to_ical env fs file_path).1.2
        = log ++ [(ERROR, "Could not create backup for " +:+ path_name file_path
                            +:+ ": " +:+ e)]).
Proof.
  intros Hprep. destruct (prepare_read _ _ _ _ _ _ Hprep) as [raw Hraw].
  rewrite (process_file_prepared from_ical to_ical _ _ _ _ _ Hprep). simpl.
  split; [reflexivity|]. split; [apply backup_path_differs|].
  split; [|split].
  - destruct (copy_error env) as [[e partial]|] eqn:Hc.
    + rewrite (persist_copy_failed to_ical _ _ _ _ _ _ Hc). simpl.
      exists []. split; [reflexivity | intros a []].
    + rewrite (persist_copy_done to_ical _ _ _ _ _ Hc Hraw). simpl.
      eexists. split; [reflexivity|].
      intros a Ha. exact (overwrite_actions to_ical _ _ _ _ a Ha).
  - intros Hc. rewrite (persist_copy_done to_ical _ _ _ _ _ Hc Hraw). simpl.
    rewrite overwrite_other by apply backup_path_differs.
    rewrite lookup_insert_eq, Hraw. split; [reflexivity | eexists; reflexivity].
  - intros e partial Hc. rewrite (persist_copy_failed to_ical _ _ _ _ _ _ Hc). simpl.
    split; [reflexivity|]. split; [|reflexivity].
    destruct partial; [|reflexivity].
    apply lookup_insert_ne, backup_path_differs.
Qed.

Lemma C9_backup_before_overwrite_witness :
  prepare Samples.const_from_ical Samples.copy_fails Samples.one_file "cal/team.ics"
    = (Some (merged_of [Samples.block [Samples.standup]]),
       [(INFO, "Processing file: team.ics")]) /\
  (process_file Samples.const_from_ical Samples.const_to_ical
                Samples.copy_fails Samples.one_file "cal/team.ics").2
    = [ReadBytes "cal/team.ics"; Copy2 "cal/team.ics" "cal/team.ics.backup"] /\
  (process_file Samples.const_from_ical Samples.const_to_ical
                Samples.copy_fails Samples.one_file "cal/team.ics").1.1 !! "cal/team.ics"
    = Samples.one_file !! "cal/team.ics".
Proof.
  assert (Hprep :
    prepare Samples.const_from_ical Samples.copy_fails Samples.one_file "cal/team.ics"
      = (Some (merged_of [Samples.block [Samples.standup]]),
         [(INFO, "Processing file: team.ics")]))
    by (vm_compute; reflexivity).
  split; [exact Hprep|].
  destruct (C9_backup_before_overwrite
              Samples.const_from_ical Samples.const_to_ical
              Samples.copy_fails Samples.one_file "cal/team.ics" _ _ Hprep)
    as [_ [_ [_ [_ Hfail]]]].
  destruct (Hfail "disk full" (Some "BEGIN") eq_refl) as [Hactions [Hfile _]].
  split; [exact Hactions | exact Hfile].
Defined.


(** * Further properties *)

(** ** Slices of a byte string *)

Section Slices.
Implicit Types (s : string) (n m a b c d : nat).

Lemma substring_empty n m : String.substring n m "" = "".
Proof. destruct n, m; reflexivity. Qed.

Lemma substring_length n m s :
  (n + m <= String.length s)%nat -> String.length (String.substring n m s) = m.
Proof.
  revert n m. induction s as [|x s IH]; intros n m H; simpl in H.
  - assert (n = 0%nat) by lia. assert (m = 0%nat) by lia. subst. reflexivity.
  - destruct n as [|n]; simpl.
    + destruct m as [|m]; simpl; [reflexivity|]. rewrite IH by lia. reflexivity.
    + apply IH. lia.
Qed.

(** A slice of a leading slice. *)
Lemma substring_of_prefix a b d s :
  (a + b <= d)%nat ->
  String.substring a b (String.substring 0 d s) = String.substring a b s.
Proof.
  revert a b d. induction s as [|x s IH]; intros a b d H.
  - rewrite !substring_empty. reflexivity.
  - destruct d as [|d].
    + assert (a = 0%nat) by lia. assert (b = 0%nat) by lia. subst. reflexivity.
    + simpl. destruct a as [|a]; simpl.
      * destruct b as [|b]; [reflexivity|]. rewrite (IH 0%nat b d) by lia. reflexivity.
      * apply IH. lia.
Qed.

(** A slice of a slice is a slice. *)
Lemma substring_of_substring a b c d s :
  (a + b <= d)%nat ->
  String.substring a b (String.substring c d s) = String.substring (c + a) b s.
Proof.
  revert c. induction s as [|x s IH]; intros c H.
  - rewrite !substring_empty. reflexivity.
  - destruct c as [|c]; [apply substring_of_prefix, H|].
    simpl. apply IH. exact H.
Qed.

(** A slice splits at any point. *)
Lemma substring_split n a b s :
  String.substring n (a + b) s = String.substring n a s +:+ String.substring (n + a) b s.
Proof.
  revert n a. induction s as [|x s IH]; intros n a.
  - rewrite !substring_empty. reflexivity.
  - destruct n as [|n]; simpl.
    + destruct a as [|a]; simpl; [reflexivity|].
      rewrite (IH 0%nat a). reflexivity.
    + apply IH.
Qed.

End Slices.

(** ** [read_file_chunks] *)

Section Extractor.
Implicit Types (raw name chunk : string) (start idx fuel : nat) (chunks : list string).

(** An end marker found from the start of a start marker lies behind it:
    the two markers cannot overlap. *)
Lemma end_after_marker raw start idx end_ :
  find raw marker start = Some idx ->
  find raw end_marker idx = Some end_ ->
  (idx + String.length marker <= end_)%nat.
Proof.
  intros Hidx Hend.
  destruct (find_bounds _ _ _ _ Hend) as [Hle _].
  unfold find in Hidx, Hend.
  apply index_correct1 in Hidx. apply index_correct1 in Hend.
  change (String.length marker) with 15%nat in *.
  change (String.length end_marker) with 13%nat in *.
  destruct (le_lt_dec (idx + 15) end_) as [Hok|Hlt]; [exact Hok|exfalso].
  assert (Hk : exists k, end_ = (idx + k)%nat /\ (k < 15)%nat)
    by (exists (end_ - idx)%nat; lia).
  destruct Hk as [k [-> Hk]].
  assert (Hov : forall m, (k + m <= 15)%nat -> (m <= 13)%nat ->
                          String.substring k m marker = String.substring 0 m end_marker).
  { intros m H1 H2.
    rewrite <- Hidx at 1. rewrite <- Hend.
    rewrite !substring_of_substring by lia. f_equal. lia. }
  do 15 (destruct k as [|k];
         [match type of Hov with
          | forall m, (?K + m <= 15)%nat -> _ =>
              pose proof (Hov (Nat.min 13 (15 - K)) ltac:(simpl; lia) ltac:(simpl; lia)) as Hc;
              vm_compute in Hc; discriminate Hc
          end|]).
  lia.
Qed.

(** The slice cut between a start marker and the next end marker. *)
Lemma cut_well_delimited raw start idx end_ :
  find raw marker start = Some idx ->
  find raw end_marker idx = Some end_ ->
  well_delimited
    (String.substring idx (end_ + String.length end_marker - idx) raw).
Proof.
  intros Hidx Hend.
  pose proof (end_after_marker _ _ _ _ Hidx Hend) as Hafter.
  destruct (find_bounds _ _ _ _ Hend) as [_ Hin].
  pose proof Hend as Hfirst. unfold find in Hidx, Hend, Hfirst.
  apply index_correct1 in Hidx. apply index_correct1 in Hend.
  unfold well_delimited.
  change (String.length marker) with 15%nat in *.
  change (String.length end_marker) with 13%nat in *.
  exists (String.substring (idx + 15) (end_ - idx - 15) raw).
  assert (Hbody : String.length (String.substring (idx + 15) (end_ - idx - 15) raw)
                  = (end_ - idx - 15)%nat) by (apply substring_length; lia).
  split.
  - replace (end_ + 13 - idx)%nat with (15 + ((end_ - idx - 15) + 13))%nat by lia.
    rewrite substring_split, substring_split, Hidx.
    replace (idx + 15 + (end_ - idx - 15))%nat with end_ by lia.
    rewrite Hend. reflexivity.
  - intros p Hp. rewrite Hbody in Hp.
    rewrite substring_of_substring by lia.
    apply (index_correct2 _ _ _ _ Hfirst); lia.
Qed.

Lemma scan_blocks_well_delimited fuel raw name start chunks :
  Forall well_delimited chunks ->
  Forall well_delimited (scan_blocks fuel raw name start chunks).1.
Proof.
  revert start chunks. induction fuel as [|fuel IH]; intros start chunks H; simpl;
    [exact H|].
  destruct (find raw marker start) as [idx|] eqn:Hidx; [|exact H].
  destruct (find raw end_marker idx) as [end_|] eqn:Hend; [|exact H].
  apply IH. apply Forall_app. split; [exact H|].
  constructor; [|constructor]. eapply cut_well_delimited; eassumption.
Qed.

(** The scan keeps the blocks it was given and adds at most what is left
    of [raw] behind [start]. *)
Lemma scan_blocks_total_length fuel raw name start chunks :
  (start <= String.length raw)%nat ->
  (total_length (scan_blocks fuel raw name start chunks).1
   <= total_length chunks + (String.length raw - start))%nat.
Proof.
  revert start chunks. induction fuel as [|fuel IH]; intros start chunks Hs; simpl;
    [lia|].
  destruct (find raw marker start) as [idx|] eqn:Hidx; [|simpl; lia].
  destruct (find raw end_marker idx) as [end_|] eqn:Hend; [|simpl; lia].
  destruct (find_bounds _ _ _ _ Hidx) as [H1 _].
  destruct (find_bounds _ _ _ _ Hend) as [H2 H3].
  change (String.length end_marker) with 13%nat in *.
  etransitivity; [apply IH; lia|].
  unfold total_length. rewrite map_app, list_sum_app. simpl.
  rewrite substring_length by lia. lia.
Qed.

Lemma read_file_chunks_scan env fs file_path :
  (read_file_chunks env fs file_path).1 = [] \/
  exists raw,
    fs !! file_path = Some raw /\
    (read_file_chunks env fs file_path).1
      = (scan_blocks (S (String.length raw)) raw (path_name file_path) 0 []).1.
Proof.
  unfold read_file_chunks, read_bytes.
  destruct (read_error env); [left; reflexivity|].
  destruct (fs !! file_path) as [raw|]; [|left; reflexivity].
  destruct (scan_blocks (S (String.length raw)) raw (path_name file_path) 0 [])
    as [chunks log] eqn:Hscan.
  destruct chunks; [left; reflexivity|].
  right. exists raw. rewrite Hscan. split; reflexivity.
Qed.

End Extractor.

(** X1.  Every block [read_file_chunks] returns is the start marker, a body
    and the end marker, and no end marker starts in the block before the
    one that closes it. *)
Theorem X1_blocks_are_delimited (env : IOEnv) (fs : FileSystem) (file_path chunk : string) :
  In chunk (read_file_chunks env fs file_path).1 ->
  exists body,
    chunk = "BEGIN:VCALENDAR" +:+ body +:+ "END:VCALENDAR" /\
    forall p, (p < 15 + String.length body)%nat ->
              String.substring p 13 chunk <> "END:VCALENDAR".
Proof.
  intros Hin.
  destruct (read_file_chunks_scan env fs file_path) as [Hnil|[raw [_ Heq]]].
  - rewrite Hnil in Hin. destruct Hin.
  - rewrite Heq in Hin.
    pose proof (scan_blocks_well_delimited (S (String.length raw)) raw
                  (path_name file_path) 0 [] (List.Forall_nil _)) as Hall.
    rewrite Forall_forall in Hall. apply Hall, list_elem_of_In, Hin.
Qed.

Lemma X1_blocks_are_delimited_witness :
  In "BEGIN:VCALENDAR x END:VCALENDAR"
     (read_file_chunks Samples.no_faults Samples.one_file "cal/team.ics").1 /\
  exists body,
    "BEGIN:VCALENDAR x END:VCALENDAR" = "BEGIN:VCALENDAR" +:+ body +:+ "END:VCALENDAR" /\
    forall p, (p < 15 + String.length body)%nat ->
              String.substring p 13 "BEGIN:VCALENDAR x END:VCALENDAR" <> "END:VCALENDAR".
Proof.
  assert (Hin : In "BEGIN:VCALENDAR x END:VCALENDAR"
                   (read_file_chunks Samples.no_faults Samples.one_file "cal/team.ics").1)
    by (vm_compute; left; reflexivity).
  split; [exact Hin|].
  apply (X1_blocks_are_delimited Samples.no_faults Samples.one_file "cal/team.ics" _ Hin).
Defined.

(** X2.  The blocks cut out of a file do not overlap: together they are no
    longer than the file. *)
Theorem X2_blocks_fit_in_file (env : IOEnv) (fs : FileSystem) (file_path raw : string) :
  fs !! file_path = Some raw ->
  (total_length (read_file_chunks env fs file_path).1 <= String.length raw)%nat.
Proof.
  intros Hraw.
  destruct (read_file_chunks_scan env fs file_path) as [Hnil|[raw' [Hraw' Heq]]].
  - rewrite Hnil. unfold total_length. simpl. lia.
  - rewrite Hraw in Hraw'. injection Hraw' as <-. rewrite Heq.
    pose proof (scan_blocks_total_length (S (String.length raw)) raw
                  (path_name file_path) 0 [] ltac:(lia)) as H.
    change (total_length []) with 0%nat in H. lia.
Qed.

Lemma X2_blocks_fit_in_file_witness :
  Samples.one_file !! "cal/team.ics" = Some "BEGIN:VCALENDAR x END:VCALENDAR" /\
  (total_length (read_file_chunks Samples.no_faults Samples.one_file "cal/team.ics").1
   <= String.length "BEGIN:VCALENDAR x END:VCALENDAR")%nat.
Proof.
  assert (Hraw : Samples.one_file !! "cal/team.ics" = Some "BEGIN:VCALENDAR x END:VCALENDAR")
    by (vm_compute; reflexivity).
  split; [exact Hraw|].
  apply (X2_blocks_fit_in_file Samples.no_faults Samples.one_file "cal/team.ics" _ Hraw).
Defined.

(** ** [parse_chunks] *)

Section Parser.
Variable from_ical : string -> outcome Calendar.
Implicit Types (chunks : list string) (filename : string) (i : nat).

Lemma parse_chunks_from_calendars i chunks filename :
  (parse_chunks_from from_ical i chunks filename).1 = omap (parsed from_ical) chunks.
Proof.
  revert i. induction chunks as [|chunk chunks IH]; intros i; simpl; [reflexivity|].
  specialize (IH (S i)). unfold parsed at 1.
  destruct (parse_chunks_from from_ical (S i) chunks filename) as [cals log].
  simpl in IH. destruct (from_ical chunk); simpl; rewrite IH; reflexivity.
Qed.

Lemma parse_chunks_from_count i chunks filename :
  (length (parse_chunks_from from_ical i chunks filename).1
   + length (parse_chunks_from from_ical i chunks filename).2 = length chunks)%nat.
Proof.
  revert i. induction chunks as [|chunk chunks IH]; intros i; simpl; [reflexivity|].
  specialize (IH (S i)).
  destruct (parse_chunks_from from_ical (S i) chunks filename) as [cals log].
  simpl in IH. destruct (from_ical chunk); simpl; lia.
Qed.

Lemma parse_chunks_from_error i before chunk after filename e :
  from_ical chunk = Raises e ->
  In (parse_error (i + length before) filename e)
     (parse_chunks_from from_ical i (before ++ chunk :: after) filename).2.
Proof.
  intros Hraise. revert i. induction before as [|b before IH]; intros i; simpl.
  - destruct (parse_chunks_from from_ical (S i) after filename) as [cals log].
    rewrite Hraise. simpl. left. rewrite Nat.add_0_r. reflexivity.
  - specialize (IH (S i)).
    destruct (parse_chunks_from from_ical (S i) (before ++ chunk :: after) filename)
      as [cals log].
    simpl in IH. replace (i + S (length before))%nat with (S i + length before)%nat by lia.
    destruct (from_ical b); simpl; [exact IH | right; exact IH].
Qed.


End Parser.

(** X3.  [parse_chunks] returns the calendars of the blocks that parse, in
    the order of the blocks; every block gives either a calendar or one log
    record; and a block that does not parse is reported as an error with its
    position counted from 1, the file name and the text of the exception. *)
Theorem X3_parse_chunks_isolates_failures
    (from_ical : string -> outcome Calendar) (chunks : list string) (filename : string) :
  (parse_chunks from_ical chunks filename).1 = omap (parsed from_ical) chunks /\
  (length (parse_chunks from_ical chunks filename).1
   + length (parse_chunks from_ical chunks filename).2 = length chunks)%nat /\
  (forall before chunk after e,
      chunks = before ++ chunk :: after -> from_ical chunk = Raises e ->
      In (ERROR, "Chunk " +:+ Text.decimal (Z.of_nat (S (length before))) +:+ " in '"
                   +:+ filename +:+ "' could not be parsed: " +:+ e)
         (parse_chunks from_ical chunks filename).2).
Proof.
  unfold parse_chunks. split; [apply parse_chunks_from_calendars|].
  split; [apply parse_chunks_from_count|].
  intros before chunk after e -> Hraise.
  apply (parse_chunks_from_error from_ical 1 before chunk after filename e Hraise).
Qed.

Lemma X3_parse_chunks_isolates_failures_witness :
  ["garbage"; "BEGIN:VCALENDAR x END:VCALENDAR"]
    = [] ++ "garbage" :: ["BEGIN:VCALENDAR x END:VCALENDAR"] /\
  MoreSamples.picky_from_ical "garbage" = Raises "Content line could not be parsed" /\
  In (ERROR, "Chunk 1 in 'team.ics' could not be parsed: Content line could not be parsed")
     (parse_chunks MoreSamples.picky_from_ical
        ["garbage"; "BEGIN:VCALENDAR x END:VCALENDAR"] "team.ics").2.
Proof.
  split; [reflexivity|]. split; [reflexivity|].
  apply (proj2 (proj2 (X3_parse_chunks_isolates_failures MoreSamples.picky_from_ical
                         ["garbage"; "BEGIN:VCALENDAR x END:VCALENDAR"] "team.ics"))
           [] "garbage" ["BEGIN:VCALENDAR x END:VCALENDAR"]
           "Content line could not be parsed"); reflexivity.
Defined.

(** ** [process_file] *)

Section FileRun.
Variable from_ical : string -> outcome Calendar.
Variable to_ical : Calendar -> outcome string.
Implicit Types (env : IOEnv) (fs : FileSystem) (file_path other : string).

Lemma persist_other env fs file_path fixed_cal other :
  other <> file_path -> other <> backup_path file_path ->
  (persist to_ical env fs file_path fixed_cal).1.1 !! other = fs !! other.
Proof.
  clear from_ical. intros Hfile Hbackup. unfold persist, copy2.
  destruct (copy_error env) as [[e [partial|]]|]; simpl.
  - rewrite lookup_insert_ne by congruence. reflexivity.
  - reflexivity.
  - destruct (fs !! file_path) as [raw|] eqn:Hraw; simpl; [|reflexivity].
    pose proof (overwrite_other to_ical env (<[backup_path file_path:=raw]> fs)
                  file_path fixed_cal other Hfile) as H.
    destruct (overwrite to_ical env (<[backup_path file_path:=raw]> fs) file_path fixed_cal)
      as [[fs' log'] actions].
    simpl in *. rewrite H, lookup_insert_ne by congruence. reflexivity.
Qed.

Lemma process_file_other env fs file_path other :
  other <> file_path -> other <> backup_path file_path ->
  (process_file from_ical to_ical env fs file_path).1.1 !! other = fs !! other.
Proof.
  intros Hfile Hbackup. unfold process_file.
  destruct (prepare from_ical env fs file_path) as [[fixed_cal|] log]; [|reflexivity].
  pose proof (persist_other env fs file_path fixed_cal other Hfile Hbackup) as H.
  destruct (persist to_ical env fs file_path fixed_cal) as [[fs' log'] actions].
  exact H.
Qed.




End FileRun.

(** X4.  [process_file] changes no file but the one it is given and its
    backup: every other path holds afterwards what it held before. *)
Theorem X4_process_file_touches_two_paths
    (from_ical : string -> outcome Calendar) (to_ical : Calendar -> outcome string)
    (env : IOEnv) (fs : FileSystem) (file_path other : string) :
  other <> file_path -> other <> file_path +:+ ".backup" ->
  (process_file from_ical to_ical env fs file_path).1.1 !! other = fs !! other.
Proof. apply process_file_other. Qed.

Lemma X4_process_file_touches_two_paths_witness :
  "cal/notes.txt" <> "cal/team.ics" /\
  "cal/notes.txt" <> "cal/team.ics" +:+ ".backup" /\
  (process_file Samples.const_from_ical Samples.const_to_ical Samples.no_faults
                MoreSamples.two_files "cal/team.ics").1.1 !! "cal/notes.txt"
    = MoreSamples.two_files !! "cal/notes.txt".
Proof.
  split; [discriminate|]. split; [discriminate|].
  apply (X4_process_file_touches_two_paths
           Samples.const_from_ical Samples.const_to_ical Samples.no_faults
           MoreSamples.two_files "cal/team.ics" "cal/notes.txt"); discriminate.
Defined.



Section WriteStage.
Variable from_ical : string -> outcome Calendar.
Variable to_ical : Calendar -> outcome string.
Implicit Types (env : IOEnv) (fs : FileSystem) (file_path : string).

(** A run that reaches the backup and whose copy succeeds, in terms of the
    overwrite that follows. *)
Lemma process_file_after_backup env fs file_path fixed_cal log :
  prepare from_ical env fs file_path = (Some fixed_cal, log) ->
  copy_error env = None ->
  exists raw,
    fs !! file_path = Some raw /\
    process_file from_ical to_ical env fs file_path =
    let after := overwrite to_ical env (<[backup_path file_path := raw]> fs)
                           file_path fixed_cal in
    (after.1.1,
     log ++ (INFO, "Backup created: " +:+ path_name (backup_path file_path)) :: after.1.2,
     ReadBytes file_path :: Copy2 file_path (backup_path file_path) :: after.2).
Proof.
  intros Hprep Hcopy. destruct (prepare_read _ _ _ _ _ _ Hprep) as [raw Hraw].
  exists raw. split; [exact Hraw|].
  rewrite (process_file_prepared from_ical to_ical _ _ _ _ _ Hprep).
  rewrite (persist_copy_done to_ical _ _ _ _ _ Hcopy Hraw). reflexivity.
Qed.

End WriteStage.

(** X6.  When nothing fails (the copy, the opening, the serializer and the
    write all succeed), a run of [process_file] that reaches the persistence
    stage leaves the serialized merged calendar in the file and the original
    bytes in the backup, and ends its log with the two success records. *)
Theorem X6_process_file_success
    (from_ical : string -> outcome Calendar) (to_ical : Calendar -> outcome string)
    (env : IOEnv) (fs : FileSystem) (file_path : string)
    (fixed_cal : Calendar) (log : list LogRecord) (data : string) :
  prepare from_ical env fs file_path = (Some fixed_cal, log) ->
  copy_error env = None -> open_error env = None -> write_error env = None ->
  to_ical fixed_cal = Returns data ->
  (process_file from_ical to_ical env fs file_path).1.1 !! file_path = Some data /\
  (process_file from_ical to_ical env fs file_path).1.1 !! backup_path file_path
    = fs !! file_path /\
  (process_file from_ical to_ical env fs file_path).1.2 =
    log ++ [(INFO, "Backup created: " +:+ path_name file_path +:+ ".backup");
            (INFO, "File successfully overwritten: " +:+ path_name file_path)] /\
  (process_file from_ical to_ical env fs file_path).2 =
    [ReadBytes file_path; Copy2 file_path (backup_path file_path);
     OpenWB file_path; WriteBytes file_path].
Proof.
  intros Hprep Hcopy Hopen Hwrite Hdata.
  destruct (process_file_after_backup from_ical to_ical _ _ _ _ _ Hprep Hcopy)
    as [raw [Hraw ->]].
  unfold overwrite. rewrite Hopen, Hdata, Hwrite. simpl.
  split; [apply lookup_insert_eq|]. split; [|split; [|reflexivity]].
  - rewrite !lookup_insert_ne by (intros H; symmetry in H; exact (backup_path_differs _ H)).
    rewrite lookup_insert_eq, Hraw. reflexivity.
  - unfold path_name, backup_path, backup_suffix.
    rewrite last_component_append. reflexivity.
Qed.

Lemma X6_process_file_success_witness :
  prepare Samples.const_from_ical Samples.no_faults Samples.one_file "cal/team.ics"
    = (Some (merged_of [Samples.block [Samples.standup]]),
       [(INFO, "Processing file: team.ics")]) /\
  Samples.const_to_ical (merged_of [Samples.block [Samples.standup]])
    = Returns "BEGIN:VCALENDAR END:VCALENDAR" /\
  (process_file Samples.const_from_ical Samples.const_to_ical Samples.no_faults
                Samples.one_file "cal/team.ics").1.1 !! "cal/team.ics"
    = Some "BEGIN:VCALENDAR END:VCALENDAR" /\
  (process_file Samples.const_from_ical Samples.const_to_ical Samples.no_faults
                Samples.one_file "cal/team.ics").1.1 !! "cal/team.ics.backup"
    = Samples.one_file !! "cal/team.ics".
Proof.
  assert (Hprep :
    prepare Samples.const_from_ical Samples.no_faults Samples.one_file "cal/team.ics"
      = (Some (merged_of [Samples.block [Samples.standup]]),
         [(INFO, "Processing file: team.ics")]))
    by (vm_compute; reflexivity).
  split; [exact Hprep|]. split; [reflexivity|].
  destruct (X6_process_file_success
              Samples.const_from_ical Samples.const_to_ical Samples.no_faults
              Samples.one_file "cal/team.ics" _ _ "BEGIN:VCALENDAR END:VCALENDAR"
              Hprep eq_refl eq_refl eq_refl eq_refl)
    as [Hfile [Hbackup _]].
  split; [exact Hfile | exact Hbackup].
Defined.

(** X7.  Take a run of [process_file] that reaches the persistence stage
    and whose backup copy succeeds.  If opening the file for writing fails,
    the file keeps its bytes.  If the file opens and the serializer raises,
    the file is left empty.  If the write itself fails, the file holds what
    had been written.  In all three cases the backup holds the original
    bytes and the last log record is the error about the write, with the
    text of the exception. *)
Theorem X7_process_file_failed_write
    (from_ical : string -> outcome Calendar) (to_ical : Calendar -> outcome string)
    (env : IOEnv) (fs : FileSystem) (file_path : string)
    (fixed_cal : Calendar) (log : list LogRecord) :
  prepare from_ical env fs file_path = (Some fixed_cal, log) ->
  copy_error env = None ->
  (forall e,
      open_error env = Some e ->
      (process_file from_ical to_ical env fs file_path).1.1 !! file_path = fs !! file_path /\
      (process_file from_ical to_ical env fs file_path).1.1 !! backup_path file_path
        = fs !! file_path /\
      last (process_file from_ical to_ical env fs file_path).1.2
        = Some (ERROR, "Could not write repaired file " +:+ path_name file_path
                         +:+ ": " +:+ e)) /\
  (forall e,
      open_error env = None -> to_ical fixed_cal = Raises e ->
      (process_file from_ical to_ical env fs file_path).1.1 !! file_path = Some "" /\
      (process_file from_ical to_ical env fs file_path).1.1 !! backup_path file_path
        = fs !! file_path /\
      last (process_file from_ical to_ical env fs file_path).1.2
        = Some (ERROR, "Could not write repaired file " +:+ path_name file_path
                         +:+ ": " +:+ e)) /\
  (forall data e partial,
      open_error env = None -> to_ical fixed_cal = Returns data ->
      write_error env = Some (e, partial) ->
      (process_file from_ical to_ical env fs file_path).1.1 !! file_path = Some partial /\
      (process_file from_ical to_ical env fs file_path).1.1 !! backup_path file_path
        = fs !! file_path /\
      last (process_file from_ical to_ical env fs file_path).1.2
        = Some (ERROR, "Could not write repaired file " +:+ path_name file_path
                         +:+ ": " +:+ e)).
Proof.
  intros Hprep Hcopy.
  destruct (process_file_after_backup from_ical to_ical _ _ _ _ _ Hprep Hcopy)
    as [raw [Hraw ->]].
  assert (Hne : file_path <> backup_path file_path)
    by (intros H; symmetry in H; exact (backup_path_differs _ H)).
  assert (Hne' : backup_path file_path <> file_path) by apply backup_path_differs.
  unfold overwrite.
  split; [|split].
  - intros e Hopen. rewrite Hopen. simpl.
    rewrite lookup_insert_ne by exact Hne'. rewrite lookup_insert_eq.
    split; [reflexivity|]. split; [exact (eq_sym Hraw)|].
    rewrite last_app. reflexivity.
  - intros e Hopen Hser. rewrite Hopen, Hser. simpl.
    rewrite lookup_insert_eq, lookup_insert_ne by exact Hne. rewrite lookup_insert_eq.
    split; [reflexivity|]. split; [exact (eq_sym Hraw)|].
    rewrite last_app. reflexivity.
  - intros data e partial Hopen Hser Hwrite. rewrite Hopen, Hser, Hwrite. simpl.
    rewrite lookup_insert_eq, !lookup_insert_ne by exact Hne. rewrite lookup_insert_eq.
    split; [reflexivity|]. split; [exact (eq_sym Hraw)|].
    rewrite last_app. reflexivity.
Qed.

Lemma X7_process_file_failed_write_witness :
  prepare Samples.const_from_ical Samples.no_faults Samples.one_file "cal/team.ics"
    = (Some (merged_of [Samples.block [Samples.standup]]),
       [(INFO, "Processing file: team.ics")]) /\
  MoreSamples.failing_to_ical (merged_of [Samples.block [Samples.standup]])
    = Raises "cannot encode" /\
  (process_file Samples.const_from_ical MoreSamples.failing_to_ical Samples.no_faults
                Samples.one_file "cal/team.ics").1.1 !! "cal/team.ics" = Some "" /\
  (process_file Samples.const_from_ical MoreSamples.failing_to_ical Samples.no_faults
                Samples.one_file "cal/team.ics").1.1 !! "cal/team.ics.backup"
    = Samples.one_file !! "cal/team.ics".
Proof.
  assert (Hprep :
    prepare Samples.const_from_ical Samples.no_faults Samples.one_file "cal/team.ics"
      = (Some (merged_of [Samples.block [Samples.standup]]),
         [(INFO, "Processing file: team.ics")]))
    by (vm_compute; reflexivity).
  split; [exact Hprep|]. split; [reflexivity|].
  destruct (X7_process_file_failed_write
              Samples.const_from_ical MoreSamples.failing_to_ical Samples.no_faults
              Samples.one_file "cal/team.ics" _ _ Hprep eq_refl)
    as [_ [Hser _]].
  destruct (Hser "cannot encode" eq_refl eq_refl) as [Hfile [Hbackup _]].
  split; [exact Hfile | exact Hbackup].
Defined.

(** ** [process_folder] *)

Lemma from_last_dot_backup (s : string) : from_last_dot (s +:+ ".backup") = Some ".backup".
Proof.
  induction s as [|c s IH]; [reflexivity|].
  change (String c s +:+ ".backup") with (String c (s +:+ ".backup")).
  cbn [from_last_dot]. rewrite IH. reflexivity.
Qed.

(** X8.  A backup is never taken for a calendar file: whatever the path,
    the path of its backup does not pass the test of [process_folder], so a
    later run over the folder leaves the backups alone. *)
Theorem X8_backups_are_not_calendar_files (file_path : string) (is_file : bool) :
  path_name (backup_path file_path) = path_name file_path +:+ ".backup" /\
  is_ics_file (backup_path file_path, is_file) = false.
Proof.
  assert (Hname : path_name (backup_path file_path) = path_name file_path +:+ ".backup")
    by apply last_component_append.
  split; [exact Hname|].
  unfold is_ics_file, path_suffix. cbn [fst snd]. rewrite Hname.
  destruct (path_name file_path) as [|c rest].
  - destruct is_file; reflexivity.
  - change (String c rest +:+ ".backup") with (String c (rest +:+ ".backup")).
    cbv iota. rewrite from_last_dot_backup. destruct is_file; reflexivity.
Qed.

Section FolderRun.
Variable from_ical : string -> outcome Calendar.
Variable to_ical : Calendar -> outcome string.
Variable env_of : string -> IOEnv.
Implicit Types (entries : list (string * bool)) (fs : FileSystem) (st : FolderState).

Lemma folder_step_fs st entry :
  folder_fs (folder_step from_ical to_ical env_of st entry) =
  if is_ics_file entry then after_file from_ical to_ical env_of (folder_fs st) entry
  else folder_fs st.
Proof.
  unfold folder_step, after_file. destruct (is_ics_file entry); [|reflexivity].
  destruct (process_file from_ical to_ical (env_of entry.1) (folder_fs st) entry.1)
    as [[fs' log] actions].
  reflexivity.
Qed.

Lemma folder_step_found st entry :
  found_files (folder_step from_ical to_ical env_of st entry) =
  is_ics_file entry || found_files st.
Proof.
  unfold folder_step. destruct (is_ics_file entry); [|reflexivity].
  destruct (process_file from_ical to_ical (env_of entry.1) (folder_fs st) entry.1)
    as [[fs' log] actions].
  reflexivity.
Qed.

Lemma fold_folder_fs entries st :
  folder_fs (fold_left (folder_step from_ical to_ical env_of) entries st) =
  fold_left (after_file from_ical to_ical env_of) (List.filter is_ics_file entries) (folder_fs st).
Proof.
  revert st. induction entries as [|entry entries IH]; intros st; simpl; [reflexivity|].
  rewrite IH, folder_step_fs. destruct (is_ics_file entry); reflexivity.
Qed.

Lemma fold_folder_found entries st :
  found_files (fold_left (folder_step from_ical to_ical env_of) entries st) =
  existsb is_ics_file entries || found_files st.
Proof.
  revert st. induction entries as [|entry entries IH]; intros st; simpl; [reflexivity|].
  rewrite IH, folder_step_found.
  destruct (is_ics_file entry), (existsb is_ics_file entries), (found_files st); reflexivity.
Qed.

Lemma process_folder_fs entries fs folder_path :
  folder_fs (process_folder from_ical to_ical env_of true entries fs folder_path) =
  fold_left (after_file from_ical to_ical env_of) (List.filter is_ics_file entries) fs.
Proof.
  unfold process_folder. cbn [negb].
  destruct (found_files (fold_left _ entries _)); cbn [folder_fs];
    rewrite fold_folder_fs; reflexivity.
Qed.

Lemma fold_after_file_other entries fs other :
  (forall entry, In entry entries -> other <> entry.1 /\ other <> backup_path entry.1) ->
  fold_left (after_file from_ical to_ical env_of) entries fs !! other = fs !! other.
Proof.
  revert fs. induction entries as [|entry entries IH]; intros fs H; simpl; [reflexivity|].
  rewrite IH by (intros e He; apply H; right; exact He).
  destruct (H entry (or_introl eq_refl)) as [H1 H2].
  apply process_file_other; assumption.
Qed.

End FolderRun.

(** X9.  Over a directory, [process_folder] runs [process_file] on the
    entries that are regular files with the extension [.ics] in any case, in
    the order of the listing, each on the file system the one before left,
    whatever became of the earlier files; it reports whether there was any
    such entry.  A path that is neither such an entry nor the backup of one
    holds afterwards what it held before. *)
Theorem X9_process_folder_runs_each_calendar_file
    (from_ical : string -> outcome Calendar) (to_ical : Calendar -> outcome string)
    (env_of : string -> IOEnv) (entries : list (string * bool))
    (fs : FileSystem) (folder_path : string) :
  folder_fs (process_folder from_ical to_ical env_of true entries fs folder_path)
    = fold_left (after_file from_ical to_ical env_of) (List.filter is_ics_file entries) fs /\
  found_files (process_folder from_ical to_ical env_of true entries fs folder_path)
    = existsb is_ics_file entries /\
  (existsb is_ics_file entries = false ->
   process_folder from_ical to_ical env_of true entries fs folder_path
     = mkFolderState fs
         [(INFO, "Processing folder: " +:+ folder_path);
          (WARNING, "No .ics files found in folder " +:+ folder_path +:+ ".")]
         [] false) /\
  (forall other,
      (forall entry, In entry entries -> is_ics_file entry = true ->
                     other <> entry.1 /\ other <> backup_path entry.1) ->
      folder_fs (process_folder from_ical to_ical env_of true entries fs folder_path) !! other
        = fs !! other).
Proof.
  split; [apply process_folder_fs|]. split; [|split].
  - unfold process_folder. cbn [negb].
    destruct (found_files (fold_left _ entries _)) eqn:Hfound; cbn [found_files];
      rewrite fold_folder_found in Hfound; cbn [found_files] in Hfound;
      rewrite orb_false_r in Hfound;
      [rewrite fold_folder_found; cbn [found_files]; apply orb_false_r | congruence].
  - intros Hnone. unfold process_folder. cbn [negb].
    assert (Hsame : fold_left (folder_step from_ical to_ical env_of) entries
                      (mkFolderState fs [(INFO, "Processing folder: " +:+ folder_path)] [] false)
                    = mkFolderState fs [(INFO, "Processing folder: " +:+ folder_path)] [] false).
    { generalize (mkFolderState fs [(INFO, "Processing folder: " +:+ folder_path)] [] false).
      induction entries as [|entry entries IH]; intros st; simpl; [reflexivity|].
      simpl in Hnone. apply orb_false_iff in Hnone as [Hentry Hrest].
      unfold folder_step at 2. rewrite Hentry. apply IH, Hrest. }
    rewrite Hsame. reflexivity.
  - intros other Hother. rewrite process_folder_fs.
    apply fold_after_file_other. intros entry Hin.
    apply filter_In in Hin as [Hin Hics]. apply Hother; assumption.
Qed.

Lemma X9_process_folder_runs_each_calendar_file_witness :
  (forall entry, In entry MoreSamples.listing -> is_ics_file entry = true ->
                 "cal/notes.txt" <> entry.1 /\ "cal/notes.txt" <> backup_path entry.1) /\
  folder_fs (process_folder Samples.const_from_ical Samples.const_to_ical
               (fun _ => Samples.no_faults) true MoreSamples.listing
               MoreSamples.two_files "cal") !! "cal/notes.txt"
    = MoreSamples.two_files !! "cal/notes.txt".
Proof.
  assert (Hother : forall entry, In entry MoreSamples.listing -> is_ics_file entry = true ->
                     "cal/notes.txt" <> entry.1 /\ "cal/notes.txt" <> backup_path entry.1).
  { intros entry [<-|[<-|[<-|[]]]] Hics; vm_compute in Hics; try discriminate.
    split; discriminate. }
  split; [exact Hother|].
  apply (proj2 (proj2 (proj2 (X9_process_folder_runs_each_calendar_file
                                Samples.const_from_ical Samples.const_to_ical
                                (fun _ => Samples.no_faults) MoreSamples.listing
                                MoreSamples.two_files "cal")))
           "cal/notes.txt" Hother).
Defined.

(** ** [process_calendars]: what the merged calendar holds *)

(** X10.  Every event of the merged calendar is an event of the input that
    has a DTSTART, with its UID replaced by the identifier of its series:
    [process_calendars] invents no event and changes no property of an
    event but UID. *)
Theorem X10_output_events_come_from_input (calendars : list Calendar) (ev' : Event) :
  In ev' (output_events calendars) ->
  exists ev,
    In ev (collect_events calendars) /\
    ev' = set_UID (series_uid (collect_events calendars) (key_of ev)) ev /\
    DTSTART ev <> None /\
    SUMMARY ev' = SUMMARY ev /\ LOCATION ev' = LOCATION ev /\
    DTSTART ev' = DTSTART ev /\ DTEND ev' = DTEND ev /\
    RRULE ev' = RRULE ev /\ RECURRENCE_ID ev' = RECURRENCE_ID ev /\
    other_props ev' = other_props ev /\ ev_subcomponents ev' = ev_subcomponents ev.
Proof.
  intros Hin. destruct (output_event_origin _ _ Hin) as [ev [Hev ->]].
  exists ev. split; [exact Hev|]. split; [reflexivity|]. split.
  - rewrite output_events_spec in Hin. apply dedup_has_signature in Hin as [sig Hsig].
    intros Hnone. unfold event_signature in Hsig. simpl in Hsig.
    rewrite Hnone in Hsig. discriminate.
  - repeat split.
Qed.

Lemma X10_output_events_come_from_input_witness :
  In (set_UID "X" Samples.a2) (output_events Samples.interleaved) /\
  exists ev,
    In ev (collect_events Samples.interleaved) /\
    set_UID "X" Samples.a2
      = set_UID (series_uid (collect_events Samples.interleaved) (key_of ev)) ev /\
    DTSTART ev <> None.
Proof.
  assert (Hin : In (set_UID "X" Samples.a2) (output_events Samples.interleaved))
    by (vm_compute; right; left; reflexivity).
  split; [exact Hin|].
  destruct (X10_output_events_come_from_input Samples.interleaved _ Hin)
    as [ev [Hev [Heq [Hstart _]]]].
  exists ev. split; [exact Hev|]. split; [exact Heq | exact Hstart].
Defined.

(** X12.  The properties of the merged calendar itself depend on the first
    calendar alone: each is an item of [property_items()] of the first
    calendar under its upper-cased name, no name is a component-type name,
    and the calendars that follow change nothing. *)
Theorem X12_header_from_first_calendar (first_cal : Calendar) (rest rest' : list Calendar) :
  cal_props (merged_of (first_cal :: rest)) = cal_props (merged_of (first_cal :: rest')) /\
  (forall key value,
      In (key, value) (cal_props (merged_of (first_cal :: rest))) ->
      ~ In key component_type_names /\
      exists key0, key = Text.upper key0 /\ In (key0, value) (property_items first_cal)).
Proof.
  unfold merged_of. rewrite !process_calendars_cons. cbv zeta.
  cbn [fst default cal_props]. split; [reflexivity|].
  intros key value Hin. unfold adopt_header in Hin.
  apply in_map_iff in Hin as [[key0 value0] [Heq Hin]]. simpl in Heq.
  injection Heq as <- <-. apply filter_In in Hin as [Hin Hkeep]. simpl in Hkeep.
  split; [|exists key0; tauto].
  intros Hname. unfold not_component_type in Hkeep. apply negb_true_iff in Hkeep.
  assert (Hex : existsb (String.eqb (Text.upper key0)) component_type_names = true).
  { apply existsb_exists. exists (Text.upper key0). split; [exact Hname|].
    apply String.eqb_refl. }
  congruence.
Qed.

Lemma X12_header_from_first_calendar_witness :
  In ("VERSION", VText "2.0")
     (cal_props (merged_of (Samples.block [Samples.standup] :: [Samples.block_x]))) /\
  ~ In "VERSION" component_type_names /\
  exists key0,
    "VERSION" = Text.upper key0 /\
    In (key0, VText "2.0") (property_items (Samples.block [Samples.standup])).
Proof.
  assert (Hin : In ("VERSION", VText "2.0")
                   (cal_props (merged_of (Samples.block [Samples.standup]
                                            :: [Samples.block_x]))))
    by (vm_compute; right; left; reflexivity).
  split; [exact Hin|].
  apply (proj2 (X12_header_from_first_calendar (Samples.block [Samples.standup])
                  [Samples.block_x] [Samples.block_x]) "VERSION" (VText "2.0") Hin).
Defined.

(** ** [process_calendars]: every event is walked once *)

Section Walk.
Implicit Types (l all_events : list Event) (ks : list SeriesKey) (k : SeriesKey).

Lemma filter_none {A} (p : A -> bool) (l : list A) :
  (forall x, In x l -> p x = false) -> List.filter p l = [].
Proof.
  induction l as [|x l IH]; simpl; intros H; [reflexivity|].
  rewrite (H x) by (left; reflexivity). apply IH. intros y Hy. apply H. right; exact Hy.
Qed.

(** Two tests that never hold together split a list. *)
Lemma filter_split {A} (p q : A -> bool) (l : list A) :
  (forall x, p x = true -> q x = true -> False) ->
  Permutation (List.filter p l ++ List.filter q l) (List.filter (fun x => p x || q x) l).
Proof.
  intros Hdisj. induction l as [|x l IH]; simpl; [constructor|].
  destruct (p x) eqn:Hp, (q x) eqn:Hq; simpl.
  - destruct (Hdisj x Hp Hq).
  - constructor. exact IH.
  - etransitivity; [symmetry; apply Permutation_middle|]. constructor. exact IH.
  - exact IH.
Qed.

Lemma series_partition l ks :
  NoDup ks ->
  Permutation (flat_map (series_of l) ks)
              (List.filter (fun ev => bool_decide (key_of ev ∈ ks)) l).
Proof.
  induction 1 as [|k ks Hnotin Hnd IH]; cbn [flat_map].
  - rewrite filter_none; [constructor|].
    intros ev _. apply bool_decide_eq_false_2, not_elem_of_nil.
  - etransitivity; [apply Permutation_app_head, IH|].
    etransitivity; [apply filter_split|].
    + intros ev Hk Hks. apply bool_decide_eq_true in Hk, Hks. subst k. contradiction.
    + erewrite filter_same_on; [reflexivity|]. intros ev _. unfold same_key.
      repeat case_bool_decide; simpl; try reflexivity; exfalso;
        rewrite elem_of_cons in *; intuition congruence.
Qed.

(** Series after series, the events are those of the flat list. *)
Lemma series_cover l :
  Permutation (flat_map (series_of l) (first_keys (map key_of l))) l.
Proof.
  etransitivity; [apply series_partition, first_keys_NoDup|].
  rewrite filter_all_true; [reflexivity|].
  intros ev Hev. apply bool_decide_eq_true, list_elem_of_In, first_keys_In, in_map, Hev.
Qed.

Lemma grouped_order_as_map all_events :
  grouped_order_events all_events =
  map (fun ev => set_UID (series_uid all_events (key_of ev)) ev)
      (flat_map (series_of all_events) (first_keys (map key_of all_events))).
Proof.
  unfold grouped_order_events.
  induction (first_keys (map key_of all_events)) as [|k ks IH]; simpl; [reflexivity|].
  rewrite map_app, IH. f_equal. apply map_ext_in. intros ev Hev.
  apply filter_In in Hev as [_ Hk]. apply bool_decide_eq_true in Hk. rewrite Hk. reflexivity.
Qed.

(** The walk of the deduplication loop visits every event of the input
    once. *)
Lemma grouped_order_Permutation all_events :
  Permutation (grouped_order_events all_events) (flattening_order_events all_events).
Proof.
  rewrite grouped_order_as_map. apply Permutation_map, series_cover.
Qed.

(** The log of the loop: one warning for each event without DTSTART. *)
Lemma dedup_log_spec l :
  dedup_log (dedup l)
  = map skip_warning (List.filter (fun ev => bool_decide (DTSTART ev = None)) l).
Proof.
  induction l as [|ev l IH] using rev_ind; [reflexivity|].
  rewrite dedup_snoc, filter_snoc, map_app, <- IH. unfold dedup_step.
  destruct (event_signature ev) as [sig|] eqn:Hsig.
  - rewrite bool_decide_eq_false_2.
    + destruct (decide _); simpl; rewrite app_nil_r; reflexivity.
    + intros H. apply event_signature_None in H. congruence.
  - rewrite bool_decide_eq_true_2 by (apply event_signature_None, Hsig). reflexivity.
Qed.

(** The loop keeps no more events than it met with a DTSTART. *)
Lemma dedup_length l :
  (length (merged_components (dedup l))
   <= length (List.filter (fun ev => negb (bool_decide (DTSTART ev = None))) l))%nat.
Proof.
  induction l as [|ev l IH] using rev_ind; [reflexivity|].
  rewrite dedup_snoc, filter_snoc, length_app. unfold dedup_step.
  destruct (event_signature ev) as [sig|] eqn:Hsig.
  - rewrite bool_decide_eq_false_2
      by (intros H; apply event_signature_None in H; congruence).
    destruct (decide _); simpl; [lia|]. rewrite length_app. simpl. lia.
  - simpl. lia.
Qed.

Lemma filter_Permutation {A} (p : A -> bool) (l l' : list A) :
  Permutation l l' -> Permutation (List.filter p l) (List.filter p l').
Proof.
  induction 1 as [|x l l' _ IH|x y l|l l' l'' _ IH1 _ IH2]; simpl.
  - constructor.
  - destruct (p x); [constructor|]; exact IH.
  - destruct (p x), (p y); try reflexivity. apply perm_swap.
  - etransitivity; eassumption.
Qed.

Lemma filter_map_same {A B} (p : A -> bool) (f : A -> A) (g : A -> B) (l : list A) :
  (forall x, p (f x) = p x) -> (forall x, g (f x) = g x) ->
  map g (List.filter p (map f l)) = map g (List.filter p l).
Proof.
  intros Hp Hg. induction l as [|x l IH]; simpl; [reflexivity|].
  rewrite Hp. destruct (p x); simpl; rewrite ?Hg, IH; reflexivity.
Qed.

Lemma filter_complement_length {A} (p : A -> bool) (l : list A) :
  (length (List.filter p l) + length (List.filter (fun x => negb (p x)) l))%nat = length l.
Proof.
  induction l as [|x l IH]; simpl; [reflexivity|].
  destruct (p x); simpl; lia.
Qed.

Lemma final_events_Permutation all_events :
  Permutation (build_final_events (group_events all_events).1)
              (flattening_order_events all_events).
Proof. rewrite final_events_spec. apply grouped_order_Permutation. Qed.

End Walk.

(** X11.  The loop of lines 110-129 hands every event of the input to the
    deduplication exactly once: [final_events] is a rearrangement of the
    flattened event list in which each event carries the identifier of its
    series and is otherwise unchanged. *)
Theorem X11_final_events_rearrange_input (calendars : list Calendar) :
  Permutation
    (build_final_events (group_events (collect_events calendars)).1)
    (map (fun ev => set_UID (series_uid (collect_events calendars) (key_of ev)) ev)
         (collect_events calendars)) /\
  length (build_final_events (group_events (collect_events calendars)).1)
    = length (collect_events calendars).
Proof.
  assert (H := final_events_Permutation (collect_events calendars)).
  split; [exact H|].
  rewrite (Permutation_length H). unfold flattening_order_events. apply length_map.
Qed.

(** X13.  The log of a run is the warnings of [series_key] followed by the
    skip warnings, and the skip warnings are, up to their order, one for
    each event of the input without DTSTART; the merged calendar holds no
    more events than the input has events with a DTSTART. *)
Theorem X13_one_warning_per_event_without_start (calendars : list Calendar)
    (merged : Calendar) (log : list LogRecord) :
  process_calendars calendars = (Some merged, log) ->
  exists warnings,
    log = (group_events (collect_events calendars)).2 ++ warnings /\
    Permutation warnings
      (map skip_warning
           (List.filter (fun ev => bool_decide (DTSTART ev = None))
                        (collect_events calendars))) /\
    (length (walk_VEVENT merged) + length warnings <= length (collect_events calendars))%nat.
Proof.
  intros Hrun. destruct calendars as [|first_cal rest]; [discriminate|].
  rewrite process_calendars_cons in Hrun. cbv zeta in Hrun.
  injection Hrun as <- <-.
  set (all_events := collect_events (first_cal :: rest)).
  set (final_events := build_final_events (group_events all_events).1).
  exists (dedup_log (dedup final_events)). split; [reflexivity|].
  assert (Hperm := final_events_Permutation all_events). fold final_events in Hperm.
  assert (Hwarn : Permutation (dedup_log (dedup final_events))
            (map skip_warning
               (List.filter (fun ev => bool_decide (DTSTART ev = None)) all_events))).
  { rewrite dedup_log_spec.
    etransitivity; [apply Permutation_map, filter_Permutation, Hperm|].
    unfold flattening_order_events.
    rewrite (filter_map_same _
               (fun ev => set_UID (series_uid all_events (key_of ev)) ev) skip_warning);
      [reflexivity | reflexivity | reflexivity]. }
  split; [exact Hwarn|].
  rewrite walk_VEVENT_merged.
  assert (Hkept := dedup_length final_events).
  assert (Hsplit := filter_complement_length
                      (fun ev => bool_decide (DTSTART ev = None)) final_events).
  rewrite dedup_log_spec, length_map.
  assert (Hlen : length final_events = length all_events).
  { rewrite (Permutation_length Hperm). unfold flattening_order_events. apply length_map. }
  cbv beta in Hsplit.
  change (length (merged_components (dedup final_events))
          + length (List.filter (fun ev => bool_decide (DTSTART ev = None)) final_events)
          <= length all_events)%nat.
  lia.
Qed.

(** The block with the events A, B, A and an event without DTSTART: one
    skip warning, two events kept out of four. *)
Lemma X13_one_warning_per_event_without_start_witness :
  process_calendars Samples.interleaved
    = (Some (merged_of Samples.interleaved), log_of Samples.interleaved) /\
  log_of Samples.interleaved
    = [(WARNING, "Skipping event 'None' because it has no DTSTART.")] /\
  exists warnings,
    log_of Samples.interleaved
      = (group_events (collect_events Samples.interleaved)).2 ++ warnings /\
    Permutation warnings
      (map skip_warning
           (List.filter (fun ev => bool_decide (DTSTART ev = None))
                        (collect_events Samples.interleaved))).
Proof.
  assert (Hrun : process_calendars Samples.interleaved
                 = (Some (merged_of Samples.interleaved), log_of Samples.interleaved))
    by (vm_compute; reflexivity).
  split; [exact Hrun|]. split; [vm_compute; reflexivity|].
  destruct (X13_one_warning_per_event_without_start Samples.interleaved _ _ Hrun)
    as [warnings [Hlog [Hperm _]]].
  exists warnings. split; [exact Hlog | exact Hperm].
Defined.

(** ** [process_calendars] on its own result *)

Section SecondRun.
Implicit Types (l all_events : list Event) (ks : list SeriesKey) (k : SeriesKey) (ev : Event).

Lemma flat_map_same_on {A B} (f g : A -> list B) (l : list A) :
  (forall x, In x l -> f x = g x) -> flat_map f l = flat_map g l.
Proof.
  induction l as [|x l IH]; simpl; intros H; [reflexivity|].
  rewrite (H x) by (left; reflexivity). rewrite IH; [reflexivity|].
  intros y Hy. apply H. right; exact Hy.
Qed.

Lemma clustered_before ev l before z after :
  clustered (ev :: l) -> l = before ++ z :: after -> key_of z = key_of ev ->
  forall w, In w before -> key_of w = key_of ev.
Proof.
  revert ev l. induction before as [|w0 before IH]; intros ev l [Hhead Hcl] -> Hz w Hin.
  - destruct Hin.
  - assert (Hw0 : key_of w0 = key_of ev).
    { assert (H : head (map key_of ((w0 :: before) ++ z :: after)) = Some (key_of ev)).
      { apply Hhead. apply in_map_iff. exists z. split; [exact Hz|].
        apply in_or_app. right. left. reflexivity. }
      simpl in H. congruence. }
    destruct Hin as [<-|Hin]; [exact Hw0|].
    rewrite <- Hw0. apply (IH w0 (before ++ z :: after) Hcl eq_refl); [congruence | exact Hin].
Qed.

(** Leaving events out keeps the series together. *)
Lemma clustered_sublist l1 l2 : l1 `sublist_of` l2 -> clustered l2 -> clustered l1.
Proof.
  induction 1 as [|ev l1 l2 Hsub IH|ev l1 l2 Hsub IH]; intros Hcl.
  - exact I.
  - split; [|apply IH, Hcl].
    intros Hin. destruct l1 as [|h t]; [destruct Hin|]. simpl. f_equal.
    apply in_map_iff in Hin as [z [Hz Hin]].
    destruct Hin as [->|Hin]; [exact Hz|].
    apply sublist_cons_l in Hsub as [k1 [k2 [-> Ht]]].
    assert (Hz2 : In z k2).
    { apply list_elem_of_In. apply (elem_of_sublist t); [apply list_elem_of_In, Hin | exact Ht]. }
    apply in_split in Hz2 as [c [d ->]].
    apply (clustered_before ev (k1 ++ h :: c ++ z :: d) (k1 ++ h :: c) z d Hcl).
    + rewrite <- app_assoc. reflexivity.
    + exact Hz.
    + apply in_or_app. right. left. reflexivity.
  - apply IH. destruct Hcl as [_ Hcl]. exact Hcl.
Qed.

Lemma clustered_app k g rest :
  (forall ev, In ev g -> key_of ev = k) ->
  (forall ev, In ev rest -> key_of ev <> k) ->
  clustered rest -> clustered (g ++ rest).
Proof.
  intros Hg Hrest Hcl. induction g as [|x g IH]; [exact Hcl|].
  simpl. split.
  - intros Hin. destruct g as [|y g].
    + simpl in Hin. apply in_map_iff in Hin as [z [Hz Hin]].
      exfalso. apply (Hrest z Hin). rewrite Hz. apply Hg. left. reflexivity.
    + simpl. f_equal. rewrite (Hg x), (Hg y); [reflexivity| |]; simpl; tauto.
  - apply IH. intros ev Hev. apply Hg. right. exact Hev.
Qed.

Lemma clustered_groups (g : SeriesKey -> list Event) ks :
  (forall k ev, In ev (g k) -> key_of ev = k) -> NoDup ks ->
  clustered (flat_map g ks).
Proof.
  intros Hg. induction 1 as [|k ks Hnotin Hnd IH]; [exact I|].
  simpl. apply (clustered_app k); [apply Hg| |exact IH].
  intros ev Hev Hk. apply in_flat_map in Hev as [k' [Hk' Hev]].
  apply Hg in Hev. apply Hnotin, list_elem_of_In. congruence.
Qed.

Lemma series_of_cons_same ev l : series_of (ev :: l) (key_of ev) = ev :: series_of l (key_of ev).
Proof.
  unfold series_of, same_key. simpl. rewrite bool_decide_eq_true_2 by reflexivity. reflexivity.
Qed.

Lemma series_of_cons_other ev l k : k <> key_of ev -> series_of (ev :: l) k = series_of l k.
Proof.
  intros Hne. unfold series_of, same_key. simpl.
  rewrite bool_decide_eq_false_2 by congruence. reflexivity.
Qed.

Lemma series_of_absent l k : ~ In k (map key_of l) -> series_of l k = [].
Proof.
  intros Hnot. apply filter_none. intros ev Hev. apply bool_decide_eq_false_2.
  intros Hk. apply Hnot. rewrite <- Hk. apply in_map, Hev.
Qed.

Lemma flat_map_series_other ev l ks :
  ~ In (key_of ev) ks -> flat_map (series_of (ev :: l)) ks = flat_map (series_of l) ks.
Proof.
  intros Hnot. apply flat_map_same_on. intros k Hk. apply series_of_cons_other.
  intros ->. contradiction.
Qed.

Lemma filter_other_keys k ks :
  ~ In k ks -> List.filter (fun k' => negb (bool_decide (k' = k))) ks = ks.
Proof.
  intros Hnot. apply filter_all_true. intros k' Hk'.
  rewrite bool_decide_eq_false_2; [reflexivity|]. intros ->. contradiction.
Qed.

Lemma filter_other_keys_notin k ks :
  ~ In k (List.filter (fun k' => negb (bool_decide (k' = k))) ks).
Proof.
  rewrite filter_In. intros [_ H]. rewrite bool_decide_eq_true_2 in H by reflexivity.
  discriminate.
Qed.

(** Grouping a clustered list and reading the groups in order gives the
    list back. *)
Lemma clustered_regroup l :
  clustered l -> flat_map (series_of l) (first_keys (map key_of l)) = l.
Proof.
  induction l as [|ev l IH]; [reflexivity|]. intros [Hhead Hcl].
  specialize (IH Hcl). cbn [map first_keys flat_map].
  rewrite series_of_cons_same, flat_map_series_other by apply filter_other_keys_notin.
  cbn [app]. f_equal.
  destruct l as [|h t].
  - reflexivity.
  - destruct (decide (key_of h = key_of ev)) as [Hsame|Hdiff].
    + cbn [map first_keys] in *. rewrite Hsame in *.
      cbn [List.filter]. rewrite bool_decide_eq_true_2 by reflexivity. cbn [negb].
      rewrite (filter_other_keys _ _ (filter_other_keys_notin _ _)).
      exact IH.
    + assert (Hnot : ~ In (key_of ev) (map key_of (h :: t))).
      { intros Hin. apply Hhead in Hin. simpl in Hin. congruence. }
      rewrite (series_of_absent _ _ Hnot).
      rewrite filter_other_keys; [exact IH|].
      rewrite first_keys_In. exact Hnot.
Qed.

(** The deduplication loop keeps the order of the events. *)
Lemma dedup_sublist l : merged_components (dedup l) `sublist_of` l.
Proof.
  induction l as [|ev l IH] using rev_ind; [constructor|].
  rewrite dedup_snoc. unfold dedup_step.
  destruct (event_signature ev) as [sig|]; [destruct (decide _)|]; simpl.
  - apply sublist_inserts_r, IH.
  - apply sublist_app; [exact IH | reflexivity].
  - apply sublist_inserts_r, IH.
Qed.

(** A list without duplicates in which every event has a DTSTART passes
    the loop unchanged and without a warning. *)
Lemma dedup_fixed l :
  NoDup (map event_signature l) -> (forall ev, In ev l -> DTSTART ev <> None) ->
  merged_components (dedup l) = l /\ dedup_log (dedup l) = [].
Proof.
  induction l as [|ev l IH] using rev_ind; intros Hnd Hstart; [split; reflexivity|].
  rewrite map_app in Hnd. apply NoDup_app in Hnd as [Hnd [Hfresh _]].
  destruct IH as [IHc IHl]; [exact Hnd | intros ev' Hev'; apply Hstart, in_or_app; tauto|].
  destruct (dedup_round_kept l ev) as [Hc Hl].
  - apply Hstart, in_or_app. right. left. reflexivity.
  - intros ev' Hev' Heq. apply (Hfresh (event_signature ev')).
    + apply list_elem_of_In, in_map, Hev'.
    + rewrite Heq. simpl. apply list_elem_of_here.
  - rewrite Hc, Hl, IHc, IHl. split; reflexivity.
Qed.

Lemma set_UID_same uid ev : UID ev = Some uid -> set_UID uid ev = ev.
Proof. destruct ev. simpl. intros ->. reflexivity. Qed.

Lemma canonical_uid_kept k master uid :
  UID master = Some uid -> uid <> "" -> canonical_uid k master = uid.
Proof.
  intros Hu Hne. unfold canonical_uid. rewrite Hu. destruct uid; [contradiction|reflexivity].
Qed.

(** In a list whose events already carry a non-empty identifier per key,
    the loop of lines 110-129 changes nothing. *)
Lemma final_events_settled l (u : SeriesKey -> string) :
  (forall ev, In ev l -> UID ev = Some (u (key_of ev))) ->
  (forall k, u k <> "") ->
  build_final_events (group_events l).1
  = flat_map (series_of l) (first_keys (map key_of l)).
Proof.
  intros Huid Hne. rewrite final_events_spec. apply flat_map_same_on. intros k Hk.
  assert (Hin : forall ev, In ev (series_of l k) -> UID ev = Some (u k)).
  { intros ev Hev. rewrite <- (series_of_key _ _ _ Hev). apply Huid.
    apply filter_In in Hev. tauto. }
  assert (Hsame : series_uid l k = u k).
  { unfold series_uid. destruct (select_master (series_of l k)) as [master|] eqn:Hm.
    - apply canonical_uid_kept; [|apply Hne]. apply Hin, select_master_In, Hm.
    - apply select_master_None in Hm. apply first_keys_In, in_map_iff in Hk as [ev [<- Hev]].
      apply series_of_nonempty in Hev. rewrite Hm in Hev. destruct Hev. }
  rewrite Hsame. rewrite <- (map_id (series_of l k)) at 2.
  apply map_ext_in. intros ev Hev. apply set_UID_same, Hin, Hev.
Qed.

Lemma output_events_clustered calendars : clustered (output_events calendars).
Proof.
  rewrite output_events_grouped.
  apply (clustered_sublist _ _ (dedup_sublist _)).
  unfold grouped_order_events. apply clustered_groups; [|apply first_keys_NoDup].
  intros k ev Hev. apply in_map_iff in Hev as [ev0 [<- Hev0]].
  rewrite key_of_set_UID. apply (series_of_key _ _ _ Hev0).
Qed.

(** Run on the events it returned, the merger returns them again. *)
Lemma second_run_events calendars :
  let out := output_events calendars in
  merged_components (dedup (build_final_events (group_events out).1)) = out /\
  dedup_log (dedup (build_final_events (group_events out).1)) = [].
Proof.
  intros out.
  rewrite (final_events_settled out (series_uid (collect_events calendars))).
  - rewrite (clustered_regroup out (output_events_clustered calendars)).
    apply dedup_fixed.
    + unfold out. rewrite output_events_spec. apply dedup_NoDup.
    + intros ev Hev Hnone. unfold out in Hev. rewrite output_events_spec in Hev.
      apply dedup_has_signature in Hev as [sig Hsig].
      apply event_signature_None in Hnone. congruence.
  - intros ev Hev. apply output_event_uid, Hev.
  - intros k. apply series_uid_nonempty.
Qed.

End SecondRun.

(** X14.  On the level of calendar objects the events are stable: when
    [process_calendars] is given the calendar it returned, it returns a
    calendar with the same events in the same order, drops none, and logs
    only what [series_key] logs for these events. *)
Theorem X14_second_run_keeps_events (calendars : list Calendar) (merged : Calendar)
    (log : list LogRecord) :
  process_calendars calendars = (Some merged, log) ->
  exists merged',
    process_calendars [merged]
      = (Some merged', (group_events (walk_VEVENT merged)).2) /\
    walk_VEVENT merged' = walk_VEVENT merged /\
    cal_subcomponents merged' = cal_subcomponents merged.
Proof.
  intros Hrun. destruct calendars as [|first_cal rest]; [discriminate|].
  assert (Hout : walk_VEVENT merged = output_events (first_cal :: rest)).
  { unfold output_events. rewrite Hrun. reflexivity. }
  assert (Hsub : cal_subcomponents merged = map EventEntry (walk_VEVENT merged)).
  { rewrite process_calendars_cons in Hrun. cbv zeta in Hrun. injection Hrun as <- _.
    rewrite walk_VEVENT_merged. reflexivity. }
  destruct (second_run_events (first_cal :: rest)) as [Hc Hl]. rewrite <- Hout in Hc, Hl.
  rewrite process_calendars_cons. cbv zeta.
  assert (Hall : collect_events [merged] = walk_VEVENT merged).
  { unfold collect_events. simpl. apply app_nil_r. }
  rewrite Hall, Hc, Hl, app_nil_r.
  eexists. split; [reflexivity|]. split.
  - apply walk_VEVENT_merged.
  - simpl. symmetry. exact Hsub.
Qed.

(** The two blocks with A twice and the stand-up twice: the second run
    returns the three events of the first. *)
Lemma X14_second_run_keeps_events_witness :
  process_calendars Samples.two_blocks
    = (Some (merged_of Samples.two_blocks), log_of Samples.two_blocks) /\
  length (walk_VEVENT (merged_of Samples.two_blocks)) = 3%nat /\
  exists merged',
    process_calendars [merged_of Samples.two_blocks]
      = (Some merged', (group_events (walk_VEVENT (merged_of Samples.two_blocks))).2) /\
    walk_VEVENT merged' = walk_VEVENT (merged_of Samples.two_blocks).
Proof.
  assert (Hrun : process_calendars Samples.two_blocks
                 = (Some (merged_of Samples.two_blocks), log_of Samples.two_blocks))
    by (vm_compute; reflexivity).
  split; [exact Hrun|]. split; [vm_compute; reflexivity|].
  destruct (X14_second_run_keeps_events Samples.two_blocks _ _ Hrun)
    as [merged' [Hsecond [Hwalk _]]].
  exists merged'. split; [exact Hsecond | exact Hwalk].
Defined.

(** ** The header of a second run *)

Section SecondHeader.

Lemma upper_char_idempotent (c : ascii) :
  Text.upper_char (Text.upper_char c) = Text.upper_char c.
Proof. destruct c as [[] [] [] [] [] [] [] []]; reflexivity. Qed.

Lemma upper_idempotent (s : string) : Text.upper (Text.upper s) = Text.upper s.
Proof.
  unfold Text.upper. induction s as [|c s IH]; simpl; [reflexivity|].
  rewrite upper_char_idempotent, IH. reflexivity.
Qed.

Lemma adopted_app items items' : adopted (items ++ items') = adopted items ++ adopted items'.
Proof. unfold adopted. rewrite List.filter_app, map_app. reflexivity. Qed.

Lemma adopt_header_adopted cal : adopt_header cal = adopted (property_items cal).
Proof. reflexivity. Qed.

(** What has been adopted once is adopted again unchanged. *)
Lemma adopted_twice items : adopted (adopted items) = adopted items.
Proof.
  unfold adopted. induction items as [|[key value] items IH]; [reflexivity|].
  cbn [List.filter fst snd]. destruct (not_component_type key) eqn:Hkeep; [|exact IH].
  cbn [map List.filter fst snd].
  assert (Hup : not_component_type (Text.upper key) = true).
  { unfold not_component_type in *. rewrite upper_idempotent. exact Hkeep. }
  rewrite Hup. cbn [map fst snd]. rewrite upper_idempotent, IH. reflexivity.
Qed.

End SecondHeader.

(** X15.  On the level of calendar objects the header is not stable: when
    [process_calendars] is given the calendar it returned, the calendar it
    returns has all the properties of the first, and besides them a BEGIN
    and an END pair and whatever [property_items()] lists for the events.
    So it has at least two properties more. *)
Theorem X15_second_run_grows_header (calendars : list Calendar) (merged merged' : Calendar)
    (log log' : list LogRecord) :
  process_calendars calendars = (Some merged, log) ->
  process_calendars [merged] = (Some merged', log') ->
  Permutation
    (cal_props merged')
    (("BEGIN", VText "VCALENDAR") :: ("END", VText "VCALENDAR")
       :: cal_props merged
       ++ adopted (flat_map entry_items (cal_subcomponents merged))) /\
  (length (cal_props merged) + 2 <= length (cal_props merged'))%nat /\
  cal_props merged' <> cal_props merged.
Proof.
  intros Hrun Hrun'.
  destruct calendars as [|first_cal rest]; [discriminate|].
  rewrite process_calendars_cons in Hrun, Hrun'. cbv zeta in Hrun, Hrun'.
  injection Hrun' as <- _.
  assert (Hhead : cal_props merged = adopted (property_items first_cal)).
  { injection Hrun as <- _. reflexivity. }
  assert (Hperm : Permutation
            (adopt_header merged)
            (("BEGIN", VText "VCALENDAR") :: ("END", VText "VCALENDAR")
               :: cal_props merged
               ++ adopted (flat_map entry_items (cal_subcomponents merged)))).
  { rewrite adopt_header_adopted. unfold property_items.
    change (adopted (?x :: ?l)) with (adopted ([x] ++ l)).
    rewrite !adopted_app.
    assert (Hsame : adopted (cal_props merged) = cal_props merged).
    { rewrite Hhead. apply adopted_twice. }
    rewrite Hsame.
    change (adopted [("BEGIN", VText "VCALENDAR")]) with [("BEGIN", VText "VCALENDAR")].
    change (adopted [("END", VText "VCALENDAR")]) with [("END", VText "VCALENDAR")].
    cbn [app]. constructor.
    rewrite app_assoc. etransitivity; [symmetry; apply Permutation_cons_append|].
    reflexivity. }
  cbn [cal_props].
  assert (Hlen : (length (cal_props merged) + 2 <= length (adopt_header merged))%nat).
  { rewrite (Permutation_length Hperm). cbn [length]. rewrite length_app. lia. }
  split; [exact Hperm|]. split; [exact Hlen|].
  intros Heq. rewrite Heq in Hlen. lia.
Qed.

(** The block with the stand-up: the header of the second run is longer
    than that of the first. *)
Lemma X15_second_run_grows_header_witness :
  process_calendars [Samples.block [Samples.standup]]
    = (Some (merged_of [Samples.block [Samples.standup]]),
       log_of [Samples.block [Samples.standup]]) /\
  process_calendars [merged_of [Samples.block [Samples.standup]]]
    = (Some (merged_of [merged_of [Samples.block [Samples.standup]]]),
       log_of [merged_of [Samples.block [Samples.standup]]]) /\
  (length (cal_props (merged_of [Samples.block [Samples.standup]])) + 2
   <= length (cal_props (merged_of [merged_of [Samples.block [Samples.standup]]])))%nat.
Proof.
  assert (Hrun : process_calendars [Samples.block [Samples.standup]]
                 = (Some (merged_of [Samples.block [Samples.standup]]),
                    log_of [Samples.block [Samples.standup]]))
    by (vm_compute; reflexivity).
  assert (Hrun' : process_calendars [merged_of [Samples.block [Samples.standup]]]
                  = (Some (merged_of [merged_of [Samples.block [Samples.standup]]]),
                     log_of [merged_of [Samples.block [Samples.standup]]]))
    by (vm_compute; reflexivity).
  split; [exact Hrun|]. split; [exact Hrun'|].
  apply (X15_second_run_grows_header _ _ _ _ _ Hrun Hrun').
Defined.

(** ** [read_file_chunks] on a file made of blocks *)

Section Layout.
Implicit Types (s t pre sub raw tail gap block : string) (n m p : nat).

Lemma index_shift pre sub s n :
  String.index (String.length pre + n) sub (pre +:+ s)
  = option_map (Nat.add (String.length pre)) (String.index n sub s).
Proof.
  induction pre as [|a pre IH].
  - change ("" +:+ s) with s. cbn [String.length Nat.add].
    destruct (String.index n sub s); reflexivity.
  - change (String a pre +:+ s) with (String a (pre +:+ s)).
    cbn [String.length Nat.add String.index]. rewrite IH.
    destruct (String.index n sub s); reflexivity.
Qed.

(** The first place from [n] on where [sub] stands is what [find]
    returns. *)
Lemma index_first n m sub s :
  sub <> "" -> (n <= m)%nat ->
  String.substring m (String.length sub) s = sub ->
  (forall p, (n <= p)%nat -> (p < m)%nat -> String.substring p (String.length sub) s <> sub) ->
  String.index n sub s = Some m.
Proof.
  intros Hne Hnm Hat Hbefore.
  destruct (String.index n sub s) as [m'|] eqn:Hidx.
  - f_equal.
    destruct (find_bounds _ _ _ _ Hidx) as [Hle _].
    pose proof (index_correct1 _ _ _ _ Hidx) as Hat'.
    pose proof (index_correct2 _ _ _ _ Hidx) as Hbefore'.
    destruct (lt_eq_lt_dec m' m) as [[Hlt|Heq]|Hgt]; [|exact Heq|].
    + destruct (Hbefore m' Hle Hlt Hat').
    + destruct (Hbefore' m Hnm Hgt Hat).
  - destruct (index_correct3 _ _ _ _ Hidx Hne Hnm Hat).
Qed.

Lemma substring_app_l p n s t :
  (p + n <= String.length s)%nat ->
  String.substring p n (s +:+ t) = String.substring p n s.
Proof.
  revert p n. induction s as [|a s IH]; intros p n H; simpl in H.
  - assert (p = 0%nat) by lia. assert (n = 0%nat) by lia. subst.
    simpl. destruct t; reflexivity.
  - change (String a s +:+ t) with (String a (s +:+ t)).
    destruct p as [|p]; simpl.
    + destruct n as [|n]; [reflexivity|]. rewrite (IH 0%nat n) by lia. reflexivity.
    + apply IH. lia.
Qed.

Lemma substring_app_skip pre p n s :
  String.substring (String.length pre + p) n (pre +:+ s) = String.substring p n s.
Proof.
  induction pre as [|a pre IH]; [reflexivity|].
  change (String a pre +:+ s) with (String a (pre +:+ s)). simpl. exact IH.
Qed.

Lemma substring_all s : String.substring 0 (String.length s) s = s.
Proof. induction s as [|a s IH]; simpl; [reflexivity|]. rewrite IH. reflexivity. Qed.

Lemma substring_head s t : String.substring 0 (String.length s) (s +:+ t) = s.
Proof. rewrite substring_app_l by lia. apply substring_all. Qed.

(** The start marker behind a gap is found at the end of the gap. *)
Lemma find_marker_behind_gap gap block rest :
  marker_free gap -> well_delimited block ->
  find (gap +:+ block +:+ rest) marker 0 = Some (String.length gap).
Proof.
  intros Hgap [body [-> _]]. unfold find.
  apply index_first; [discriminate | lia | |].
  - rewrite <- (Nat.add_0_r (String.length gap)), substring_app_skip.
    rewrite append_assoc. apply substring_head.
  - intros p _ Hp.
    rewrite (append_assoc marker), <- (append_assoc gap marker).
    rewrite substring_app_l; [apply Hgap, Hp|].
    rewrite length_append. lia.
Qed.

(** The end marker of a block is the first one behind its start. *)
Lemma find_end_of_block block rest :
  well_delimited block ->
  find (block +:+ rest) end_marker 0
  = Some (String.length block - String.length end_marker)%nat.
Proof.
  intros [body [-> Hfirst]]. unfold find.
  assert (Hlen : String.length (marker +:+ body +:+ end_marker)
                 = (String.length marker + String.length body
                    + String.length end_marker)%nat).
  { rewrite !length_append. lia. }
  rewrite Hlen.
  replace (String.length marker + String.length body + String.length end_marker
           - String.length end_marker)%nat
    with (String.length (marker +:+ body) + 0)%nat by (rewrite length_append; lia).
  apply index_first; [discriminate | lia | |].
  - rewrite !append_assoc, <- (append_assoc marker body).
    rewrite substring_app_skip. apply substring_head.
  - intros p _ Hp. rewrite length_append in Hp.
    rewrite substring_app_l; [apply Hfirst; lia|]. rewrite Hlen. lia.
Qed.

Lemma well_delimited_length block :
  well_delimited block ->
  (String.length marker + String.length end_marker <= String.length block)%nat.
Proof. intros [body [-> _]]. rewrite !length_append. lia. Qed.

(** The scan of a laid out file, started behind what has been read. *)
Lemma scan_laid_out parts tail name :
  Forall (fun part => marker_free part.1 /\ well_delimited part.2) parts ->
  find tail marker 0 = None ->
  forall fuel pre chunks,
    (length parts < fuel)%nat ->
    scan_blocks fuel (pre +:+ laid_out parts tail) name (String.length pre) chunks
    = (chunks ++ map snd parts, []).
Proof.
  intros Hparts Htail. induction Hparts as [|[gap block] parts [Hgap Hblock] _ IH];
    intros fuel pre chunks Hfuel.
  - destruct fuel as [|fuel]; [simpl in Hfuel; lia|].
    cbn [laid_out fold_right scan_blocks map].
    unfold find at 1. rewrite <- (Nat.add_0_r (String.length pre)), index_shift.
    unfold find in Htail. rewrite Htail. cbn [option_map]. rewrite app_nil_r. reflexivity.
  - destruct fuel as [|fuel]; [simpl in Hfuel; lia|]. simpl in Hfuel.
    cbn [laid_out fold_right fst snd map]. fold (laid_out parts tail).
    set (rest := laid_out parts tail).
    cbn [scan_blocks].
    assert (Hidx : find (pre +:+ gap +:+ block +:+ rest) marker (String.length pre)
                   = Some (String.length (pre +:+ gap))).
    { unfold find. rewrite <- (Nat.add_0_r (String.length pre)) at 1. rewrite index_shift.
      pose proof (find_marker_behind_gap gap block rest Hgap Hblock) as H.
      unfold find in H. rewrite H. cbn [option_map]. rewrite length_append. reflexivity. }
    rewrite Hidx.
    assert (Hend : find (pre +:+ gap +:+ block +:+ rest) end_marker
                        (String.length (pre +:+ gap))
                   = Some (String.length (pre +:+ gap)
                           + (String.length block - String.length end_marker))%nat).
    { unfold find. rewrite <- (append_assoc pre gap).
      rewrite <- (Nat.add_0_r (String.length (pre +:+ gap))) at 1. rewrite index_shift.
      pose proof (find_end_of_block block rest Hblock) as H.
      unfold find in H. rewrite H. reflexivity. }
    rewrite Hend.
    pose proof (well_delimited_length block Hblock) as Hlen.
    replace (String.length (pre +:+ gap)
             + (String.length block - String.length end_marker)
             + String.length end_marker)%nat
      with (String.length ((pre +:+ gap) +:+ block)) by (rewrite (length_append _ block); lia).
    replace (String.length ((pre +:+ gap) +:+ block) - String.length (pre +:+ gap))%nat
      with (String.length block) by (rewrite (length_append _ block); lia).
    assert (Hcut : String.substring (String.length (pre +:+ gap)) (String.length block)
                     (pre +:+ gap +:+ block +:+ rest) = block).
    { rewrite <- (append_assoc pre gap).
      rewrite <- (Nat.add_0_r (String.length (pre +:+ gap))), substring_app_skip.
      apply substring_head. }
    rewrite Hcut.
    replace (pre +:+ gap +:+ block +:+ rest) with (((pre +:+ gap) +:+ block) +:+ rest)
      by (rewrite !append_assoc; reflexivity).
    unfold rest.
    rewrite (IH fuel ((pre +:+ gap) +:+ block) (chunks ++ [block])) by lia.
    rewrite <- app_assoc. reflexivity.
Qed.

End Layout.

(** X16.  A readable file that consists of blocks, each the start marker,
    a body without end marker and the end marker, with no start marker
    beginning in the bytes between them or behind the last, is cut into
    exactly these blocks, in order, and nothing is logged. *)
Theorem X16_blocks_are_found (env : IOEnv) (fs : FileSystem) (file_path : string)
    (parts : list (string * string)) (tail : string) :
  read_error env = None ->
  fs !! file_path = Some (laid_out parts tail) ->
  parts <> [] ->
  Forall (fun part => marker_free part.1 /\ well_delimited part.2) parts ->
  find tail marker 0 = None ->
  read_file_chunks env fs file_path = (map snd parts, []).
Proof.
  intros Hread Hfile Hne Hparts Htail.
  unfold read_file_chunks, read_bytes. rewrite Hread, Hfile.
  assert (Hfuel : (length parts < S (String.length (laid_out parts tail)))%nat).
  { clear Hfile Hne Htail. induction Hparts as [|[gap block] parts [_ Hblock] _ IH].
    - simpl. lia.
    - apply well_delimited_length in Hblock.
      change (String.length marker) with 15%nat in Hblock.
      change (String.length end_marker) with 13%nat in Hblock.
      cbn [laid_out fold_right fst snd length] in *. fold (laid_out parts tail).
      rewrite !length_append. lia. }
  pose proof (scan_laid_out parts tail (path_name file_path) Hparts Htail
                (S (String.length (laid_out parts tail))) "" [] Hfuel) as Hscan.
  change ("" +:+ laid_out parts tail) with (laid_out parts tail) in Hscan.
  change (String.length "") with 0%nat in Hscan. cbn [app] in Hscan. rewrite Hscan.
  destruct parts as [|part parts]; [contradiction|]. reflexivity.
Qed.

Lemma X16_blocks_are_found_witness :
  read_file_chunks Samples.no_faults LayoutSamples.on_disk "cal/two.ics"
  = ([LayoutSamples.first_block; LayoutSamples.second_block], []).
Proof.
  apply (X16_blocks_are_found Samples.no_faults LayoutSamples.on_disk "cal/two.ics"
           LayoutSamples.two_lines LayoutSamples.newline).
  - reflexivity.
  - reflexivity.
  - discriminate.
  - repeat constructor; cbn [fst snd].
    + intros p Hp. simpl in Hp. lia.
    + exists " x ". split; [reflexivity|]. intros p Hp.
      do 18 (destruct p as [|p]; [vm_compute; discriminate|]). simpl in Hp. lia.
    + intros p Hp. destruct p as [|p]; [vm_compute; discriminate|]. simpl in Hp. lia.
    + exists " yy ". split; [reflexivity|]. intros p Hp.
      do 19 (destruct p as [|p]; [vm_compute; discriminate|]). simpl in Hp. lia.
  - reflexivity.
Defined.
